(** * Cyberbrain's value stack (cyberbrain/value_stack.py)

    A shallow embedding of the [ValueStack] class, the simulator of the
    interpreter's value stack that Cyberbrain drives with decoded bytecode
    instructions, and the properties of it that the design document states.

    Python is dynamically typed and the class relies on it: [_push] tells the
    placeholder [None], a single value and a list apart at run time, and the
    accessors [tos], [tos1] and [_pop] answer [None] when the stack is too
    short.  The embedding therefore keeps run-time values ([pyval]) on the
    stack, and a handler is a computation over the object's two fields that
    either returns or raises; the fields keep whatever was written to them
    before an exception left the method.

    The lists on the stack are values here.  In Python [DUP_TOP] and the
    unpacking handlers push one list object several times, but no method
    changes a list that is on the stack: [_pop_n_push_one] extends a list of
    its own, and the stack itself is only appended to and popped. *)

From stdpp Require Import base option list strings gmap.
From Stdlib Require Import ZArith.

Local Open Scope Z_scope.

(** ** Python values and built-ins *)

(** The values that reach the stack, the handlers' arguments or a mutation:
    [None], a [str] and a [list]. *)
#[warnings="-register-all"]
Inductive pyval : Type :=
  | PNone
  | PStr (s : string)
  | PList (l : list pyval).

(** What a [set] can hold of these: a list is not hashable. *)
Inductive hashable : Type :=
  | HNone
  | HStr (s : string).

#[global] Instance hashable_eq_dec : EqDecision hashable.
Proof. solve_decision. Defined.

#[global] Instance hashable_countable : Countable hashable.
Proof.
  refine (inj_countable'
            (fun h => match h with HNone => None | HStr s => Some s end)
            (fun o => match o with None => HNone | Some s => HStr s end) _).
  intros []; reflexivity.
Defined.

(** The exceptions that the class can raise.  [AttributeError] carries the
    name of the attribute that [getattr] looked for. *)
Inductive exn : Type :=
  | IndexError
  | TypeError
  | ValueError
  | AssertionError
  | AttributeError (name : string).

Inductive outcome (A : Type) : Type :=
  | Returns (a : A)
  | Raises (e : exn).
Arguments Returns {A} a.
Arguments Raises {A} e.

Module Py.

(** [l[i]] on a list: a negative index counts from the end, and an index
    out of range is an [IndexError] ([None] here). *)
Definition list_getitem {A} (l : list A) (i : Z) : option A :=
  let n := Z.of_nat (length l) in
  if (0 <=? i) && (i <? n) then l !! Z.to_nat i
  else if (- n <=? i) && (i <? 0) then l !! Z.to_nat (n + i)
  else None.

(** [l.pop()]: the last element and the list without it. *)
Definition list_pop {A} (l : list A) : option (A * list A) :=
  match last l with
  | Some x => Some (x, removelast l)
  | None => None
  end.

(** The characters of a string, each a string of length one. *)
Fixpoint chars (s : string) : list pyval :=
  match s with
  | EmptyString => []
  | String c s' => PStr (String c EmptyString) :: chars s'
  end.

(** Iteration, as [extend], [set] and tuple unpacking use it. *)
Definition iter (v : pyval) : outcome (list pyval) :=
  match v with
  | PNone => Raises TypeError
  | PStr s => Returns (chars s)
  | PList l => Returns l
  end.

(** [len(v)]. *)
Definition len (v : pyval) : outcome Z :=
  match v with
  | PNone => Raises TypeError
  | PStr s => Returns (Z.of_nat (String.length s))
  | PList l => Returns (Z.of_nat (length l))
  end.

(** [v[i]]. *)
Definition getitem (v : pyval) (i : Z) : outcome pyval :=
  match v with
  | PNone => Raises TypeError
  | PStr s =>
      match list_getitem (chars s) i with
      | Some c => Returns c
      | None => Raises IndexError
      end
  | PList l =>
      match list_getitem l i with
      | Some x => Returns x
      | None => Raises IndexError
      end
  end.

(** [hash(v)], needed of every member of a set. *)
Definition hash (v : pyval) : outcome hashable :=
  match v with
  | PNone => Returns HNone
  | PStr s => Returns (HStr s)
  | PList _ => Raises TypeError
  end.

Fixpoint hash_all (l : list pyval) : outcome (list hashable) :=
  match l with
  | [] => Returns []
  | v :: l' =>
      match hash v with
      | Returns h =>
          match hash_all l' with
          | Returns hs => Returns (h :: hs)
          | Raises e => Raises e
          end
      | Raises e => Raises e
      end
  end.

(** [set(v)]. *)
Definition set (v : pyval) : outcome (gset hashable) :=
  match iter v with
  | Returns l =>
      match hash_all l with
      | Returns hs => Returns (list_to_set hs)
      | Raises e => Raises e
      end
  | Raises e => Raises e
  end.

(** [acc + x] on an [int] accumulator; [x] may be [None]. *)
Definition add (acc : outcome Z) (x : option Z) : outcome Z :=
  match acc, x with
  | Returns a, Some b => Returns (a + b)
  | Returns _, None => Raises TypeError
  | Raises e, _ => Raises e
  end.

(** [sum(l)]: starts at 0 and adds from the left. *)
Definition sum (l : list (option Z)) : outcome Z :=
  fold_left add l (Returns 0).

(** [a, b = v]. *)
Definition unpack2 (v : pyval) : outcome (pyval * pyval) :=
  match iter v with
  | Returns [a; b] => Returns (a, b)
  | Returns _ => Raises ValueError
  | Raises e => Raises e
  end.

End Py.

(** ** The object and its methods' effects *)

(** The two fields that [__init__] creates.  The list [stack] is kept in
    Python's order: its last element is the top of the stack. *)
Record ValueStack : Type := {
  stack : list pyval;
  extended_args : list (option Z)
}.

(** [ValueStack()]. *)
Definition new : ValueStack := {| stack := []; extended_args := [] |}.

(** A method body: it reads and writes the fields of [self] and returns or
    raises.  The fields are those at the time the body was left. *)
Definition M (A : Type) : Type := ValueStack -> outcome A * ValueStack.

#[global] Instance M_ret : MRet M := fun A a st => (Returns a, st).

#[global] Instance M_bind : MBind M := fun A B f m st =>
  match m st with
  | (Returns a, st') => f a st'
  | (Raises e, st') => (Raises e, st')
  end.

(** The result of a built-in, inside a method. *)
Definition lift {A} (o : outcome A) : M A := fun st => (o, st).

Definition raise {A} (e : exn) : M A := lift (Raises e).

(** [try: body  except IndexError: handler]. *)
Definition try_except_IndexError {A} (body handler : M A) : M A := fun st =>
  match body st with
  | (Raises IndexError, st') => handler st'
  | r => r
  end.

(** [assert b]. *)
Definition assert (b : bool) : M unit :=
  if b then mret tt else raise AssertionError.

(** [range(n)] gives [n] rounds, none when [n] is negative; [None] is not an
    integer. *)
Definition range (n : option Z) : M nat :=
  match n with
  | Some k => mret (Z.to_nat k)
  | None => raise TypeError
  end.

(** [for _ in range(k): acc = body(acc)], the rounds carrying the loop's
    local variable. *)
Fixpoint for_range {T} (k : nat) (body : T -> M T) (acc : T) : M T :=
  match k with
  | O => mret acc
  | S k' => acc' ← body acc; for_range k' body acc'
  end.

(** [self.stack[i]], [self.stack.pop()] and [self.stack.append(v)]. *)
Definition stack_getitem (i : Z) : M pyval := fun st =>
  match Py.list_getitem (stack st) i with
  | Some v => (Returns v, st)
  | None => (Raises IndexError, st)
  end.

Definition stack_pop : M pyval := fun st =>
  match Py.list_pop (stack st) with
  | Some (v, rest) =>
      (Returns v, {| stack := rest; extended_args := extended_args st |})
  | None => (Raises IndexError, st)
  end.

Definition stack_append (v : pyval) : M unit := fun st =>
  (Returns tt, {| stack := stack st ++ [v]; extended_args := extended_args st |}).

(** [self.extended_args], [.append(x)] and [.clear()]. *)
Definition get_extended_args : M (list (option Z)) := fun st =>
  (Returns (extended_args st), st).

Definition extended_args_append (x : option Z) : M unit := fun st =>
  (Returns tt, {| stack := stack st; extended_args := extended_args st ++ [x] |}).

Definition extended_args_clear : M unit := fun st =>
  (Returns tt, {| stack := stack st; extended_args := [] |}).

(** ** The class *)

(** Modelled from the spec: the record [Mutation] of [cyberbrain.basis], which
    is imported by the module and not part of it: a target and the set of its
    sources. *)
Record Mutation : Type := {
  target : pyval;
  sources : gset hashable
}.

(** A decoded instruction, [dis.Instruction] with the fields that the class
    reads.  [arg] is [None] for an instruction without argument; [argval] is
    the resolved argument (the name, for the instructions that store into
    one) and [argrepr] its text. *)
Record Instruction : Type := {
  opname : string;
  arg : option Z;
  argval : pyval;
  argrepr : string
}.

(** The placeholder for a value whose origin is of no interest. *)
Definition _placeholder : pyval := PNone.

(** The property [tos].  The exception built in the [except] branch is not
    raised: the branch ends and the property returns [None]. *)
Definition tos : M pyval :=
  try_except_IndexError (stack_getitem (-1)) (mret PNone).

(** The property [tos1], likewise. *)
Definition tos1 : M pyval :=
  try_except_IndexError (stack_getitem (-2)) (mret PNone).

Definition _push (value : pyval) : M unit :=
  let value :=
    match value with
    | PNone => PList []          (* value is _placeholder *)
    | PList l => PList l         (* isinstance(value, list) *)
    | v => PList [v]
    end in
  stack_append value.

(** [_pop(n)]; as in [tos], running out of elements ends in [None], after the
    elements that were there have been popped. *)
Definition _pop (n : Z) : M pyval :=
  try_except_IndexError
    (if n =? 1 then stack_pop
     else
       k ← range (Some n);
       l ← for_range k (fun l => v ← stack_pop; mret (l ++ [v])) [];
       mret (PList l))
    (mret PNone).

Definition _replace_tos (new_value : pyval) : M unit :=
  _pop 1;; _push new_value.

Definition _pop_n_push_one (n : option Z) : M unit :=
  k ← range n;
  elements ← for_range k
    (fun elements => v ← _pop 1; l ← lift (Py.iter v); mret (elements ++ l)) [];
  _push (PList elements).

Definition _pop_one_push_n (n : option Z) : M unit :=
  tos ← _pop 1;
  k ← range n;
  for_range k (fun _ => _push tos) tt.

(** *** The handlers

    A handler returns the mutation that the instruction causes, or [None]. *)
Definition handler : Type := Instruction -> M (option Mutation).

Definition _POP_TOP_handler : handler := fun instr =>
  _pop 1;; mret None.

Definition _ROT_TWO_handler : handler := fun instr =>
  popped ← _pop 2;
  '(tos, tos1) ← lift (Py.unpack2 popped);
  _push tos;;
  _push tos1;;
  mret None.

Definition _DUP_TOP_handler : handler := fun instr =>
  v ← tos; _push v;; mret None.

Definition _UNARY_POSITIVE_handler : handler := fun instr => mret None.

Definition _UNARY_NEGATIVE_handler : handler := fun instr => mret None.

Definition _UNARY_NOT_handler : handler := fun instr => mret None.

Definition _UNARY_INVERT_handler : handler := fun instr => mret None.

Definition _BINARY_operation_handler : handler := fun instr =>
  _pop_n_push_one (Some 2);; mret None.

Definition _RETURN_VALUE_handler : handler := fun instr =>
  _pop 1;; mret None.

Definition _STORE_NAME_handler : handler := fun instr =>
  v ← tos;
  srcs ← lift (Py.set v);
  let mutation := {| target := argval instr; sources := srcs |} in
  _pop 1;;
  mret (Some mutation).

Definition _UNPACK_SEQUENCE_handler : handler := fun instr =>
  _pop_one_push_n (arg instr);; mret None.

Definition _UNPACK_EX_handler : handler := fun instr =>
  args ← get_extended_args;
  assert (Z.of_nat (length args) <=? 1);;
  args ← get_extended_args;
  total ← lift (Py.sum args);
  number_of_receivers ← lift (Py.add (Returns (total + 1)) (arg instr));
  _pop_one_push_n (Some number_of_receivers);;
  extended_args_clear;;
  mret None.

Definition _STORE_ATTR_handler : handler := fun instr =>
  v ← tos;
  n ← lift (Py.len v);
  assert (n =? 1);;
  v ← tos;
  owner ← lift (Py.getitem v 0);
  v1 ← tos1;
  srcs ← lift (Py.set v1);
  let mutation := {| target := owner; sources := srcs |} in
  mret (Some mutation).

Definition _LOAD_CONST_handler : handler := fun instr =>
  _push _placeholder;; mret None.

Definition _LOAD_NAME_handler : handler := fun instr =>
  _push (PStr (argrepr instr));; mret None.

Definition _BUILD_TUPLE_handler : handler := fun instr =>
  _pop_n_push_one (arg instr);; mret None.

Definition _BUILD_LIST_handler : handler := fun instr =>
  _BUILD_TUPLE_handler instr;; mret None.

Definition _BUILD_SET_handler : handler := fun instr =>
  _BUILD_TUPLE_handler instr;; mret None.

Definition _BUILD_MAP_handler : handler := fun instr =>
  n ← lift (match arg instr with
            | Some a => Returns (a * 2)
            | None => Raises TypeError
            end);
  _pop_n_push_one (Some n);; mret None.

Definition _BUILD_CONST_KEY_MAP_handler : handler := fun instr =>
  n ← lift (match arg instr with
            | Some a => Returns (a + 1)
            | None => Raises TypeError
            end);
  _pop_n_push_one (Some n);; mret None.

(** The handler "just does nothing", so that the name of the object whose
    attribute is read stays on the stack. *)
Definition _LOAD_ATTR_handler : handler := fun instr => mret None.

Definition _LOAD_FAST_handler : handler := fun instr =>
  _push (PStr (argrepr instr));; mret None.

Definition _STORE_FAST_handler : handler := fun instr =>
  _STORE_NAME_handler instr.

Definition _LOAD_METHOD_handler : handler := fun instr =>
  _pop 1;; mret None.

Definition _CALL_METHOD_handler : handler := fun instr => mret None.

Definition _EXTENDED_ARG_handler : handler := fun instr =>
  extended_args_append (arg instr);; mret None.

(** *** Dispatch *)

(** The attributes of the class whose name has the form [_<opname>_handler],
    the only names that [emit_mutation] asks for. *)
Definition handlers : list (string * handler) :=
  [ ("_POP_TOP_handler", _POP_TOP_handler);
    ("_ROT_TWO_handler", _ROT_TWO_handler);
    ("_DUP_TOP_handler", _DUP_TOP_handler);
    ("_UNARY_POSITIVE_handler", _UNARY_POSITIVE_handler);
    ("_UNARY_NEGATIVE_handler", _UNARY_NEGATIVE_handler);
    ("_UNARY_NOT_handler", _UNARY_NOT_handler);
    ("_UNARY_INVERT_handler", _UNARY_INVERT_handler);
    ("_BINARY_operation_handler", _BINARY_operation_handler);
    ("_RETURN_VALUE_handler", _RETURN_VALUE_handler);
    ("_STORE_NAME_handler", _STORE_NAME_handler);
    ("_UNPACK_SEQUENCE_handler", _UNPACK_SEQUENCE_handler);
    ("_UNPACK_EX_handler", _UNPACK_EX_handler);
    ("_STORE_ATTR_handler", _STORE_ATTR_handler);
    ("_LOAD_CONST_handler", _LOAD_CONST_handler);
    ("_LOAD_NAME_handler", _LOAD_NAME_handler);
    ("_BUILD_TUPLE_handler", _BUILD_TUPLE_handler);
    ("_BUILD_LIST_handler", _BUILD_LIST_handler);
    ("_BUILD_SET_handler", _BUILD_SET_handler);
    ("_BUILD_MAP_handler", _BUILD_MAP_handler);
    ("_BUILD_CONST_KEY_MAP_handler", _BUILD_CONST_KEY_MAP_handler);
    ("_LOAD_ATTR_handler", _LOAD_ATTR_handler);
    ("_LOAD_FAST_handler", _LOAD_FAST_handler);
    ("_STORE_FAST_handler", _STORE_FAST_handler);
    ("_LOAD_METHOD_handler", _LOAD_METHOD_handler);
    ("_CALL_METHOD_handler", _CALL_METHOD_handler);
    ("_EXTENDED_ARG_handler", _EXTENDED_ARG_handler) ].

(** [getattr(self, name)] for such a name. *)
Definition getattr (name : string) : M handler :=
  match (list_to_map handlers : gmap string handler) !! name with
  | Some h => mret h
  | None => raise (AttributeError name)
  end.

(** The name [f"_{opname}_handler"]. *)
Definition handler_name (opname : string) : string :=
  "_" +:+ opname +:+ "_handler".

Definition emit_mutation (instr : Instruction) : M (option Mutation) :=
  if String.prefix "BINARY_" (opname instr) then
    _BINARY_operation_handler instr;; mret None
  else
    h ← getattr (handler_name (opname instr));
    h instr.

(** The caller's loop over the instructions of a frame: each is given to
    [emit_mutation] in turn, and an exception ends the loop.  The results are
    those of the instructions, in order. *)
Fixpoint emit_mutations (instrs : list Instruction) : M (list (option Mutation)) :=
  match instrs with
  | [] => mret []
  | instr :: rest =>
      r ← emit_mutation instr;
      rs ← emit_mutations rest;
      mret (r :: rs)
  end.

(** ** Vocabulary of the properties *)

(** A slot that holds the labels [S], in order. *)
Definition slot (S : list string) : pyval := PList (PStr <$> S).

(** The set of labels of such a slot, as [set(...)] computes it for the
    [sources] of a mutation. *)
Definition label_set (S : list string) : gset hashable :=
  list_to_set (HStr <$> S).

(** A label: a string, and neither the placeholder nor a list. *)
Definition is_label (v : pyval) : bool :=
  match v with
  | PStr _ => true
  | _ => false
  end.

(** A value of the stack that is a list of labels. *)
Definition is_slot (v : pyval) : bool :=
  match v with
  | PList l => forallb is_label l
  | _ => false
  end.

(** Every value of the stack is a list of labels. *)
Definition stack_ok (st : ValueStack) : Prop :=
  Forall (fun v => is_slot v = true) (stack st).

(** A method body that leaves the fields of the object as they are, whether
    it returns or raises. *)
Definition read_only {A} (m : M A) : Prop := forall st, (m st).2 = st.

(** A method body that keeps lists of labels on the stack, whether it returns
    or raises, and whose result, when it returns, satisfies [Q]. *)
Definition preserves {A} (m : M A) (Q : A -> Prop) : Prop :=
  forall st, stack_ok st ->
    stack_ok (m st).2 /\ forall a, (m st).1 = Returns a -> Q a.

(** What the accessors answer on such a stack: a slot, or [None]. *)
Definition slot_or_None (v : pyval) : Prop :=
  v = PNone \/ is_slot v = true.

(** A method body that leaves the extended arguments as they are, whether it
    returns or raises. *)
Definition keeps_extended_args {A} (m : M A) : Prop :=
  forall st, extended_args (m st).2 = extended_args st.

(** A handler that returns no mutation. *)
Definition no_mutation (m : M (option Mutation)) : Prop :=
  forall st mutation, (m st).1 <> Returns (Some mutation).

(** The exceptions that leave a handler: those of the built-ins on a value of
    the wrong type, and that of a failed assertion. *)
Definition escaping (e : exn) : Prop :=
  e = TypeError \/ e = AssertionError.

(** A method body that raises nothing but such exceptions, and whose result,
    when it returns, satisfies [Q]. *)
Definition escapes {A} (m : M A) (Q : A -> Prop) : Prop :=
  forall st,
    match (m st).1 with
    | Returns a => Q a
    | Raises e => escaping e
    end.

(** The opcode names that have a handler of their own. *)
Definition handled_opnames : list string :=
  [ "POP_TOP"; "ROT_TWO"; "DUP_TOP"; "UNARY_POSITIVE"; "UNARY_NEGATIVE";
    "UNARY_NOT"; "UNARY_INVERT"; "RETURN_VALUE"; "STORE_NAME";
    "UNPACK_SEQUENCE"; "UNPACK_EX"; "STORE_ATTR"; "LOAD_CONST"; "LOAD_NAME";
    "BUILD_TUPLE"; "BUILD_LIST"; "BUILD_SET"; "BUILD_MAP";
    "BUILD_CONST_KEY_MAP"; "LOAD_ATTR"; "LOAD_FAST"; "STORE_FAST";
    "LOAD_METHOD"; "CALL_METHOD"; "EXTENDED_ARG" ].

(** Instructions as [dis] decodes them, for the examples. *)
Module Dis.

Definition no_arg (op : string) : Instruction :=
  {| opname := op; arg := None; argval := PNone; argrepr := "" |}.

Definition with_name (op : string) (namei : Z) (name : string) : Instruction :=
  {| opname := op; arg := Some namei; argval := PStr name; argrepr := name |}.

Definition with_count (op : string) (count : Z) : Instruction :=
  {| opname := op; arg := Some count; argval := PNone; argrepr := "" |}.

Definition POP_TOP : Instruction := no_arg "POP_TOP".
Definition ROT_TWO : Instruction := no_arg "ROT_TWO".
Definition DUP_TOP : Instruction := no_arg "DUP_TOP".
Definition BINARY_ADD : Instruction := no_arg "BINARY_ADD".
Definition LOAD_CONST (consti : Z) : Instruction := with_count "LOAD_CONST" consti.
Definition LOAD_NAME (namei : Z) (name : string) : Instruction :=
  with_name "LOAD_NAME" namei name.
Definition LOAD_ATTR (namei : Z) (name : string) : Instruction :=
  with_name "LOAD_ATTR" namei name.
Definition STORE_ATTR (namei : Z) (name : string) : Instruction :=
  with_name "STORE_ATTR" namei name.
Definition STORE_NAME (namei : Z) (name : string) : Instruction :=
  with_name "STORE_NAME" namei name.
Definition UNPACK_EX (counts : Z) : Instruction := with_count "UNPACK_EX" counts.
Definition EXTENDED_ARG (ext : Z) : Instruction := with_count "EXTENDED_ARG" ext.
Definition RETURN_VALUE : Instruction := no_arg "RETURN_VALUE".
Definition LOAD_FAST (var_num : Z) (name : string) : Instruction :=
  with_name "LOAD_FAST" var_num name.
Definition STORE_FAST (var_num : Z) (name : string) : Instruction :=
  with_name "STORE_FAST" var_num name.
Definition UNPACK_SEQUENCE (count : Z) : Instruction :=
  with_count "UNPACK_SEQUENCE" count.
Definition BUILD_TUPLE (count : Z) : Instruction := with_count "BUILD_TUPLE" count.
Definition BUILD_MAP (count : Z) : Instruction := with_count "BUILD_MAP" count.
Definition BUILD_CONST_KEY_MAP (count : Z) : Instruction :=
  with_count "BUILD_CONST_KEY_MAP" count.

End Dis.

(** * Properties *)

(** ** Python lists *)

Section lists.
Context {A : Type}.
Implicit Types (l : list A) (x y : A).

Lemma list_pop_nil : Py.list_pop (@nil A) = None.
Proof. reflexivity. Qed.

Lemma list_pop_snoc l x : Py.list_pop (l ++ [x]) = Some (x, l).
Proof.
  unfold Py.list_pop. by rewrite last_snoc, removelast_last.
Qed.

Lemma list_pop_None l : Py.list_pop l = None -> l = [].
Proof.
  destruct l as [|a l] using rev_ind; [done|].
  by rewrite list_pop_snoc.
Qed.

Lemma list_getitem_nil (i : Z) : Py.list_getitem (@nil A) i = None.
Proof.
  unfold Py.list_getitem. by repeat case_match.
Qed.

Lemma list_getitem_last l x : Py.list_getitem (l ++ [x]) (-1) = Some x.
Proof.
  unfold Py.list_getitem.
  rewrite length_app; simpl length.
  replace (0 <=? -1) with false by reflexivity. simpl andb.
  replace (-1 <? 0) with true by reflexivity.
  replace (- Z.of_nat (length l + 1) <=? -1) with true
    by (symmetry; apply Z.leb_le; lia).
  simpl andb. cbv iota.
  replace (Z.to_nat (Z.of_nat (length l + 1) + -1)) with (length l) by lia.
  by rewrite list_lookup_middle.
Qed.

Lemma list_getitem_last_but_one l x y :
  Py.list_getitem (l ++ [x; y]) (-2) = Some x.
Proof.
  unfold Py.list_getitem.
  rewrite length_app; simpl length.
  replace (0 <=? -2) with false by reflexivity. simpl andb.
  replace (-2 <? 0) with true by reflexivity.
  replace (- Z.of_nat (length l + 2) <=? -2) with true
    by (symmetry; apply Z.leb_le; lia).
  simpl andb. cbv iota.
  replace (Z.to_nat (Z.of_nat (length l + 2) + -2)) with (length l) by lia.
  by rewrite list_lookup_middle.
Qed.

Lemma list_getitem_short l (k : Z) :
  Z.of_nat (length l) < k -> Py.list_getitem l (- k) = None.
Proof.
  intros Hk. unfold Py.list_getitem.
  replace (0 <=? - k) with false by (symmetry; apply Z.leb_gt; lia).
  replace (- Z.of_nat (length l) <=? - k) with false
    by (symmetry; apply Z.leb_gt; lia).
  reflexivity.
Qed.

End lists.

(** ** The accessors and the primitives of the stack *)

Section primitives.
Implicit Types (base : list pyval) (v : pyval) (ext : list (option Z)).

Lemma bind_eq {A B} (m : M A) (f : A -> M B) st :
  (m ≫= f) st =
  match m st with
  | (Returns a, st') => f a st'
  | (Raises e, st') => (Raises e, st')
  end.
Proof. reflexivity. Qed.

Lemma ret_eq {A} (a : A) st : (mret a : M A) st = (Returns a, st).
Proof. reflexivity. Qed.

Lemma tos_last base v ext :
  tos {| stack := base ++ [v]; extended_args := ext |} =
  (Returns v, {| stack := base ++ [v]; extended_args := ext |}).
Proof.
  unfold tos, try_except_IndexError, stack_getitem. cbn [stack].
  by rewrite list_getitem_last.
Qed.

Lemma tos_empty ext :
  tos {| stack := []; extended_args := ext |} =
  (Returns PNone, {| stack := []; extended_args := ext |}).
Proof. reflexivity. Qed.

Lemma tos1_last_but_one base v1 v ext :
  tos1 {| stack := base ++ [v1; v]; extended_args := ext |} =
  (Returns v1, {| stack := base ++ [v1; v]; extended_args := ext |}).
Proof.
  unfold tos1, try_except_IndexError, stack_getitem. cbn [stack].
  by rewrite list_getitem_last_but_one.
Qed.

Lemma tos_last_of_two base v1 v ext :
  tos {| stack := base ++ [v1; v]; extended_args := ext |} =
  (Returns v, {| stack := base ++ [v1; v]; extended_args := ext |}).
Proof.
  change (base ++ [v1; v]) with (base ++ [v1] ++ [v]).
  rewrite app_assoc. apply tos_last.
Qed.

Lemma tos1_short st :
  (length (stack st) < 2)%nat -> tos1 st = (Returns PNone, st).
Proof.
  intros Hlen. unfold tos1, try_except_IndexError, stack_getitem.
  rewrite (list_getitem_short _ 2) by lia. reflexivity.
Qed.

Lemma pop_last base v ext :
  _pop 1 {| stack := base ++ [v]; extended_args := ext |} =
  (Returns v, {| stack := base; extended_args := ext |}).
Proof.
  unfold _pop, try_except_IndexError, stack_pop. cbn [stack Z.eqb Pos.eqb].
  by rewrite list_pop_snoc.
Qed.

Lemma pop_empty ext :
  _pop 1 {| stack := []; extended_args := ext |} =
  (Returns PNone, {| stack := []; extended_args := ext |}).
Proof. reflexivity. Qed.

(** [_pop()] never raises: it returns the top, or [None]. *)
Lemma pop_returns st : exists v st', _pop 1 st = (Returns v, st').
Proof.
  destruct st as [s ext]. destruct s as [|v s _] using rev_ind.
  - rewrite pop_empty. eauto.
  - rewrite pop_last. eauto.
Qed.

Lemma push_list (l : list pyval) st :
  _push (PList l) st =
  (Returns tt, {| stack := stack st ++ [PList l];
                  extended_args := extended_args st |}).
Proof. reflexivity. Qed.

Lemma push_str (s : string) st :
  _push (PStr s) st =
  (Returns tt, {| stack := stack st ++ [PList [PStr s]];
                  extended_args := extended_args st |}).
Proof. reflexivity. Qed.

Lemma push_placeholder st :
  _push _placeholder st =
  (Returns tt, {| stack := stack st ++ [PList []];
                  extended_args := extended_args st |}).
Proof. reflexivity. Qed.

(** Pushing any value appends one list to the stack. *)
Lemma push_returns v st :
  exists l, _push v st =
    (Returns tt, {| stack := stack st ++ [PList l];
                    extended_args := extended_args st |}).
Proof. destruct v; eexists; reflexivity. Qed.

End primitives.

(** Runs a method body up to the next call of a method or built-in. *)
Ltac mstep :=
  repeat first
    [ rewrite bind_eq
    | rewrite ret_eq
    | progress cbn [mret M_ret lift raise assert range
                    get_extended_args extended_args_clear
                    extended_args_append stack extended_args] ].

(** ** Built-ins on slots *)

Lemma hash_all_labels (S : list string) :
  Py.hash_all (PStr <$> S) = Returns (HStr <$> S).
Proof. induction S as [|s S IH]; [done|]. csimpl. by rewrite IH. Qed.

Lemma set_slot (S : list string) : Py.set (slot S) = Returns (label_set S).
Proof. unfold Py.set, slot. cbn [Py.iter]. by rewrite hash_all_labels. Qed.

Lemma len_slot (S : list string) :
  Py.len (slot S) = Returns (Z.of_nat (length S)).
Proof. unfold slot. cbn [Py.len]. by rewrite length_fmap. Qed.

Lemma label_set_app (S1 S2 : list string) :
  label_set (S1 ++ S2) = label_set S1 ∪ label_set S2.
Proof. unfold label_set. by rewrite fmap_app, list_to_set_app_L. Qed.

Lemma elem_of_label_set (s : string) (S : list string) :
  HStr s ∈ label_set S <-> s ∈ S.
Proof.
  unfold label_set. rewrite elem_of_list_to_set, list_elem_of_fmap. split.
  - intros (s' & Heq & Hin). by simplify_eq.
  - eauto.
Qed.

Lemma is_slot_slot (S : list string) : is_slot (slot S) = true.
Proof. unfold slot; simpl. by induction S. Qed.

(** A value that passes [is_slot] is the slot of its labels. *)
Lemma is_slot_inv (v : pyval) : is_slot v = true -> exists S, v = slot S.
Proof.
  destruct v as [| |l]; try done. simpl. intros Hl.
  assert (exists S, l = PStr <$> S) as [S ->]; [|by exists S].
  induction l as [|x l IH]; [by exists []|].
  simpl in Hl. apply andb_prop in Hl as [Hx Hl].
  destruct (IH Hl) as [S ->]. destruct x; try done.
  by exists (s :: S).
Qed.

(** ** Dispatch *)

Lemma append_length (s1 s2 : string) :
  String.length (s1 +:+ s2) = (String.length s1 + String.length s2)%nat.
Proof. induction s1 as [|c s1 IH]; simpl; [done|]. by rewrite IH. Qed.

Lemma append_inj_l (s s1 s2 : string) : s1 +:+ s = s2 +:+ s -> s1 = s2.
Proof.
  revert s2. induction s1 as [|c1 s1 IH]; intros [|c2 s2] Heq; simpl in Heq.
  - done.
  - apply (f_equal String.length) in Heq.
    rewrite !append_length in Heq. simpl in Heq. lia.
  - apply (f_equal String.length) in Heq.
    rewrite !append_length in Heq. simpl in Heq. lia.
  - injection Heq as -> Heq. f_equal. by apply IH.
Qed.

#[local] Instance handler_name_inj : Inj (=) (=) handler_name.
Proof.
  intros op1 op2 Heq. unfold handler_name in Heq.
  apply (inj (String.app "_")) in Heq. by apply append_inj_l in Heq.
Qed.

(** The attribute names of the handlers are those of the opnames that have
    one, and that of the handler shared by the binary operations. *)
Lemma handlers_names :
  handlers.*1 ≡ₚ handler_name <$> ("BINARY_operation" :: handled_opnames).
Proof.
  change (handlers.*1) with
    (handler_name <$>
       (take 7 handled_opnames ++
        "BINARY_operation" :: drop 7 handled_opnames)).
  apply fmap_Permutation. symmetry.
  rewrite <- (take_drop 7 handled_opnames) at 1.
  apply Permutation_middle.
Qed.

(** An opname without a handler: [getattr] finds nothing. *)
Lemma lookup_unhandled (op : string) :
  String.prefix "BINARY_" op = false ->
  op ∉ handled_opnames ->
  (list_to_map handlers : gmap string handler) !! handler_name op = None.
Proof.
  intros Hprefix Hop. apply not_elem_of_list_to_map_1.
  rewrite handlers_names. intros Hin.
  apply list_elem_of_fmap_inj_2 in Hin; [|apply _].
  apply elem_of_cons in Hin as [-> | Hin]; [done|]. by apply Hop.
Qed.

(** An opname that is not a binary operation is handled by the attribute of
    its name. *)
Lemma emit_mutation_dispatch (instr : Instruction) (h : handler) :
  String.prefix "BINARY_" (opname instr) = false ->
  (list_to_map handlers : gmap string handler) !! handler_name (opname instr)
    = Some h ->
  emit_mutation instr = h instr.
Proof.
  intros Hprefix Hlookup. unfold emit_mutation, getattr.
  by rewrite Hprefix, Hlookup.
Qed.

Lemma emit_mutation_binary (instr : Instruction) :
  String.prefix "BINARY_" (opname instr) = true ->
  emit_mutation instr = (_BINARY_operation_handler instr;; mret None).
Proof. intros Hprefix. unfold emit_mutation. by rewrite Hprefix. Qed.

(** Dispatch on a known opname [Hop : opname instr = "..."] to handler [h]. *)
Ltac dispatch Hop h :=
  rewrite (emit_mutation_dispatch _ h)
    by (rewrite Hop; vm_compute; reflexivity).

(** ** Spreading one slot into several *)

Lemma for_range_push (k : nat) (l : list pyval) (s : list pyval)
    (ext : list (option Z)) :
  for_range k (fun _ => _push (PList l)) tt
    {| stack := s; extended_args := ext |} =
  (Returns tt, {| stack := s ++ replicate k (PList l); extended_args := ext |}).
Proof.
  revert s. induction k as [|k IH]; intros s.
  - cbn [for_range replicate]. by rewrite app_nil_r.
  - cbn [for_range replicate]. rewrite bind_eq, push_list. cbn [stack extended_args].
    rewrite IH. by rewrite <- app_assoc.
Qed.

Lemma pop_one_push_n_last (n : Z) (base l : list pyval) (ext : list (option Z)) :
  _pop_one_push_n (Some n)
    {| stack := base ++ [PList l]; extended_args := ext |} =
  (Returns tt, {| stack := base ++ replicate (Z.to_nat n) (PList l);
                  extended_args := ext |}).
Proof.
  unfold _pop_one_push_n. rewrite bind_eq, pop_last.
  cbn [range]. rewrite bind_eq. cbn [mret M_ret].
  apply for_range_push.
Qed.

(** On an empty stack [_pop()] answers [None], which [_push] takes for the
    placeholder: the slots that are pushed are empty. *)
Lemma pop_one_push_n_empty (n : Z) (ext : list (option Z)) :
  _pop_one_push_n (Some n) {| stack := []; extended_args := ext |} =
  (Returns tt, {| stack := replicate (Z.to_nat n) (PList []);
                  extended_args := ext |}).
Proof.
  unfold _pop_one_push_n. rewrite bind_eq, pop_empty.
  cbn [range]. rewrite bind_eq. cbn [mret M_ret].
  change (fun _ : unit => _push PNone) with (fun _ : unit => _push (PList [])).
  apply (for_range_push _ [] []).
Qed.

Lemma pop_one_push_n_returns (n : Z) (st : ValueStack) :
  exists st', _pop_one_push_n (Some n) st = (Returns tt, st').
Proof.
  destruct st as [s ext]. destruct s as [|v s _] using rev_ind.
  - rewrite pop_one_push_n_empty. eauto.
  - unfold _pop_one_push_n. rewrite bind_eq, pop_last.
    cbn [range]. rewrite bind_eq. cbn [mret M_ret].
    destruct v as [|str|l].
    + change (fun _ : unit => _push PNone) with (fun _ : unit => _push (PList [])).
      rewrite for_range_push. eauto.
    + change (fun _ : unit => _push (PStr str))
        with (fun _ : unit => _push (PList [PStr str])).
      rewrite for_range_push. eauto.
    + rewrite for_range_push. eauto.
Qed.

(** ** Merging several slots into one *)

Lemma concat_fmap_labels (slots : list (list string)) :
  concat (fmap (M:=list) PStr <$> slots) = PStr <$> concat slots.
Proof.
  induction slots as [|S slots IH]; [done|].
  csimpl. by rewrite IH, fmap_app.
Qed.

Lemma label_set_concat (slots : list (list string)) :
  label_set (concat slots) = ⋃ (label_set <$> slots).
Proof.
  induction slots as [|S slots IH]; [done|].
  csimpl. by rewrite label_set_app, IH.
Qed.

(** The loop of [_pop_n_push_one]: one round for each of the lists on top of
    the stack, the topmost first. *)
Lemma extend_loop (items : list (list pyval)) (base acc : list pyval)
    (ext : list (option Z)) :
  for_range (length items)
    (fun elements => v ← _pop 1; l ← lift (Py.iter v); mret (elements ++ l))
    acc {| stack := base ++ (PList <$> items); extended_args := ext |} =
  (Returns (acc ++ concat (reverse items)),
   {| stack := base; extended_args := ext |}).
Proof.
  revert acc. induction items as [|x items IH] using rev_ind; intros acc.
  - cbn. by rewrite !app_nil_r.
  - rewrite length_app, Nat.add_1_r, fmap_app, app_assoc. cbn [for_range].
    mstep. csimpl. rewrite pop_last. mstep. cbn [Py.iter]. mstep.
    rewrite IH, reverse_snoc. csimpl. by rewrite app_assoc.
Qed.

Lemma pop_n_push_one_slots (slots : list (list string)) (base : list pyval)
    (ext : list (option Z)) :
  _pop_n_push_one (Some (Z.of_nat (length slots)))
    {| stack := base ++ (slot <$> slots); extended_args := ext |} =
  (Returns tt, {| stack := base ++ [slot (concat (reverse slots))];
                  extended_args := ext |}).
Proof.
  unfold _pop_n_push_one. mstep. rewrite Nat2Z.id.
  replace (slot <$> slots) with (PList <$> (fmap (M:=list) PStr <$> slots))
    by (by rewrite <- list_fmap_compose).
  replace (length slots) with (length (fmap (M:=list) PStr <$> slots))
    by apply length_fmap.
  rewrite extend_loop, push_list. cbn [stack extended_args app].
  by rewrite <- fmap_reverse, concat_fmap_labels.
Qed.

(** ** Bodies that only read *)

Lemma read_only_ret {A} (a : A) : read_only (mret a : M A).
Proof. by intros st. Qed.

Lemma read_only_lift {A} (o : outcome A) : read_only (lift o).
Proof. by intros st. Qed.

Lemma read_only_assert (b : bool) : read_only (assert b).
Proof. by destruct b. Qed.

Lemma read_only_bind {A B} (m : M A) (f : A -> M B) :
  read_only m -> (forall a, read_only (f a)) -> read_only (m ≫= f).
Proof.
  intros Hm Hf st. rewrite bind_eq. specialize (Hm st).
  destruct (m st) as [[a|e] st']; simpl in Hm; subst st'; [apply Hf|done].
Qed.

Lemma read_only_tos : read_only tos.
Proof.
  intros st. unfold tos, try_except_IndexError, stack_getitem.
  by destruct (Py.list_getitem _ _).
Qed.

Lemma read_only_tos1 : read_only tos1.
Proof.
  intros st. unfold tos1, try_except_IndexError, stack_getitem.
  by destruct (Py.list_getitem _ _).
Qed.

Lemma read_only_STORE_ATTR (instr : Instruction) :
  read_only (_STORE_ATTR_handler instr).
Proof.
  unfold _STORE_ATTR_handler.
  repeat first
    [ apply read_only_bind; [|intros ?]
    | apply read_only_tos | apply read_only_tos1 | apply read_only_lift
    | apply read_only_assert | apply read_only_ret ].
Qed.

(** ** The store into an attribute *)

Lemma STORE_ATTR_handler_emits (instr : Instruction) (base : list pyval)
    (S : list string) (owner : string) (ext : list (option Z)) :
  _STORE_ATTR_handler instr
    {| stack := base ++ [slot S; slot [owner]]; extended_args := ext |} =
  (Returns (Some {| target := PStr owner; sources := label_set S |}),
   {| stack := base ++ [slot S; slot [owner]]; extended_args := ext |}).
Proof.
  unfold _STORE_ATTR_handler.
  mstep. rewrite tos_last_of_two. mstep.
  change (Py.len (slot [owner])) with (Returns (A:=Z) 1). mstep.
  change (1 =? 1) with true. mstep. rewrite tos_last_of_two. mstep.
  change (Py.getitem (slot [owner]) 0) with (Returns (PStr owner)).
  mstep. rewrite tos1_last_but_one. mstep. rewrite set_slot. by mstep.
Qed.

(** * The statements of the design document *)

(** C1.  The document asks that a pop or a peek on a stack that is too short
    raise an underflow error.  The class builds the exception and does not
    raise it: on an empty stack [tos], [tos1] and [_pop] return [None], on a
    stack of one slot so does [tos1], and [_pop(2)] returns [None] after it
    has removed the slot; an instruction that pops the top of an empty stack
    returns as if nothing were amiss, and one that duplicates it pushes an
    empty slot. *)
Theorem underflow_is_not_raised (ext : list (option Z)) (v : pyval) :
  let empty := {| stack := []; extended_args := ext |} in
  let one := {| stack := [v]; extended_args := ext |} in
  tos empty = (Returns PNone, empty)
  /\ tos1 empty = (Returns PNone, empty)
  /\ tos1 one = (Returns PNone, one)
  /\ _pop 1 empty = (Returns PNone, empty)
  /\ _pop 2 one = (Returns PNone, empty)
  /\ emit_mutation Dis.POP_TOP empty = (Returns None, empty)
  /\ emit_mutation Dis.DUP_TOP empty =
       (Returns None, {| stack := [PList []]; extended_args := ext |}).
Proof. repeat split. Qed.

(** C2.  An instruction whose opname has no handler and is not that of a
    binary operation: [emit_mutation] raises the [AttributeError] of
    [getattr], which names the attribute [_<opname>_handler] that is
    missing; nothing catches it, so it ends the caller's loop.  The object is
    left as it was. *)
Theorem emit_mutation_unsupported (instr : Instruction) (st : ValueStack)
    (rest : list Instruction) :
  String.prefix "BINARY_" (opname instr) = false ->
  opname instr ∉ handled_opnames ->
  emit_mutation instr st =
    (Raises (AttributeError ("_" +:+ opname instr +:+ "_handler")), st)
  /\ emit_mutations (instr :: rest) st =
    (Raises (AttributeError ("_" +:+ opname instr +:+ "_handler")), st).
Proof.
  intros Hprefix Hop.
  assert (emit_mutation instr st =
    (Raises (AttributeError ("_" +:+ opname instr +:+ "_handler")), st)) as Hemit.
  { unfold emit_mutation, getattr.
    by rewrite Hprefix, (lookup_unhandled _ Hprefix Hop). }
  split; [done|]. cbn [emit_mutations]. by rewrite bind_eq, Hemit.
Qed.

(** [NOP] has no handler. *)
Lemma emit_mutation_unsupported_witness :
  emit_mutation (Dis.no_arg "NOP") new =
    (Raises (AttributeError "_NOP_handler"), new)
  /\ emit_mutations [Dis.no_arg "NOP"; Dis.POP_TOP] new =
    (Raises (AttributeError "_NOP_handler"), new).
Proof.
  apply (emit_mutation_unsupported (Dis.no_arg "NOP") new [Dis.POP_TOP]).
  - reflexivity.
  - apply (bool_decide_unpack _). vm_compute. exact I.
Defined.

(** C4.  A load of an attribute does nothing: the stack, slot by slot, and
    the extended arguments are as before, and no mutation is returned. *)
Theorem LOAD_ATTR_is_noop (instr : Instruction) (st : ValueStack) :
  opname instr = "LOAD_ATTR" ->
  emit_mutation instr st = (Returns None, st).
Proof.
  intros Hop. by dispatch Hop _LOAD_ATTR_handler.
Qed.

(** The load of [b.x], with [b] on the stack. *)
Lemma LOAD_ATTR_is_noop_witness :
  emit_mutation (Dis.LOAD_ATTR 1 "x")
    {| stack := [slot ["b"]]; extended_args := [Some 2] |} =
  (Returns None, {| stack := [slot ["b"]]; extended_args := [Some 2] |}).
Proof. apply LOAD_ATTR_is_noop. reflexivity. Defined.

(** C7.  Merge conservation: with the slots [S1 .. Sn] on top of the stack,
    [_pop_n_push_one(n)] replaces them by one slot, the labels of [Sn], ...,
    [S1] in a single flat list, whose set of labels is the union of theirs;
    the depth of the stack goes down by [n - 1]. *)
Theorem pop_n_push_one_merges (slots : list (list string)) (base : list pyval)
    (ext : list (option Z)) :
  let n := Z.of_nat (length slots) in
  let before := {| stack := base ++ (slot <$> slots); extended_args := ext |} in
  let merged := concat (reverse slots) in
  let after := {| stack := base ++ [slot merged]; extended_args := ext |} in
  _pop_n_push_one (Some n) before = (Returns tt, after)
  /\ Py.set (slot merged) = Returns (⋃ (label_set <$> slots))
  /\ Z.of_nat (length (stack after)) = Z.of_nat (length (stack before)) - (n - 1)
  /\ is_slot (slot merged) = true.
Proof.
  intros n before merged after. repeat split.
  - apply pop_n_push_one_slots.
  - rewrite set_slot. unfold merged.
    by rewrite label_set_concat, fmap_reverse, union_list_reverse_L.
  - unfold after, before, n. cbn [stack].
    rewrite !length_app, length_fmap. simpl length. lia.
  - apply is_slot_slot.
Qed.

(** C5.  Every instruction whose opname begins with [BINARY_] goes to the
    one handler of the binary operations: the two slots on top of the stack
    are replaced by one that holds the labels of both, and no mutation is
    returned.  So [a + b], from an empty stack, leaves the one slot of the
    labels [b] and [a]. *)
Theorem binary_operation_merges :
  (forall (instr : Instruction) (base : list pyval) (S1 S2 : list string)
          (ext : list (option Z)),
     String.prefix "BINARY_" (opname instr) = true ->
     emit_mutation instr
       {| stack := base ++ [slot S1; slot S2]; extended_args := ext |} =
       (Returns None,
        {| stack := base ++ [slot (S2 ++ S1)]; extended_args := ext |})
     /\ Py.set (slot (S2 ++ S1)) = Returns (label_set S1 ∪ label_set S2))
  /\ emit_mutations
       [Dis.LOAD_NAME 0 "a"; Dis.LOAD_NAME 1 "b"; Dis.BINARY_ADD] new =
     (Returns [None; None; None],
      {| stack := [slot ["b"; "a"]]; extended_args := [] |})
  /\ Py.set (slot ["b"; "a"]) = Returns {[ HStr "a"; HStr "b" ]}.
Proof.
  split; [|split].
  - intros instr base S1 S2 ext Hprefix. split.
    + rewrite (emit_mutation_binary _ Hprefix).
      unfold _BINARY_operation_handler. mstep.
      pose proof (pop_n_push_one_slots [S1; S2] base ext) as Hmerge.
      change (Z.of_nat (length [S1; S2])) with 2 in Hmerge.
      change (slot <$> [S1; S2]) with [slot S1; slot S2] in Hmerge.
      rewrite Hmerge. mstep.
      change (concat (reverse [S1; S2])) with (S2 ++ (S1 ++ [])).
      by rewrite app_nil_r.
    + rewrite set_slot, label_set_app. f_equal. apply (comm_L (∪)).
  - vm_compute. reflexivity.
  - rewrite set_slot. unfold label_set. csimpl.
    f_equal; set_solver.
Qed.

(** [a + b], with [a] and [b] on the stack. *)
Lemma binary_operation_merges_witness :
  emit_mutation Dis.BINARY_ADD
    {| stack := [slot ["a"]; slot ["b"]]; extended_args := [] |} =
  (Returns None, {| stack := [slot ["b"; "a"]]; extended_args := [] |}).
Proof.
  apply (proj1 binary_operation_merges Dis.BINARY_ADD [] ["a"] ["b"] []).
  reflexivity.
Defined.

(** C6, as the class has it.  The handler of [UNPACK_EX] first asserts that
    at most one extended argument is pending.  With none or one pending, an
    integer argument and a list on top of the stack, the list is replaced by
    as many copies of itself as the pending value, if any, plus one plus the
    argument, and the pending value is dropped.  After [EXTENDED_ARG 2], an
    [UNPACK_EX 1] pushes the four copies for [2 + 1 + 1] receivers. *)
Theorem UNPACK_EX_spreads :
  (forall (instr : Instruction) (a : Z) (pending : list Z)
          (base l : list pyval),
     opname instr = "UNPACK_EX" ->
     arg instr = Some a ->
     (length pending <= 1)%nat ->
     emit_mutation instr
       {| stack := base ++ [PList l]; extended_args := Some <$> pending |} =
     (Returns None,
      {| stack := base ++ replicate (Z.to_nat (foldr Z.add 0 pending + 1 + a))
                            (PList l);
         extended_args := [] |}))
  /\ emit_mutations [Dis.EXTENDED_ARG 2; Dis.UNPACK_EX 1]
       {| stack := [slot ["a"]]; extended_args := [] |} =
     (Returns [None; None],
      {| stack := [slot ["a"]; slot ["a"]; slot ["a"]; slot ["a"]];
         extended_args := [] |}).
Proof.
  split; [|by vm_compute].
  intros instr a pending base l Hop Harg Hlen.
  dispatch Hop _UNPACK_EX_handler. unfold _UNPACK_EX_handler.
  rewrite Harg. destruct pending as [|e [|e' pending]]; [| |simpl in Hlen; lia].
  - mstep. csimpl. mstep. cbn [Py.sum Py.add fold_left]. mstep.
    by rewrite pop_one_push_n_last.
  - mstep. csimpl. mstep. cbn [Py.sum Py.add fold_left]. mstep.
    rewrite pop_one_push_n_last. by rewrite Z.add_0_r.
Qed.

(** [UNPACK_EX 1] after [EXTENDED_ARG 2]: four receivers. *)
Lemma UNPACK_EX_spreads_witness :
  emit_mutation (Dis.UNPACK_EX 1)
    {| stack := [slot ["a"]]; extended_args := [Some 2] |} =
  (Returns None, {| stack := replicate 4 (slot ["a"]); extended_args := [] |}).
Proof.
  apply (proj1 UNPACK_EX_spreads (Dis.UNPACK_EX 1) 1 [2] [] [PStr "a"]).
  - reflexivity.
  - reflexivity.
  - simpl. lia.
Defined.

(** C6, as the document has it, fails where two values are pending: the sum
    is never taken, nothing is spread and the values stay. *)
Lemma UNPACK_EX_two_pending :
  let st := {| stack := [slot ["a"]]; extended_args := [Some 1; Some 2] |} in
  emit_mutation (Dis.UNPACK_EX 0) st = (Raises AssertionError, st)
  /\ emit_mutation (Dis.UNPACK_EX 0) st <>
     (Returns None,
      {| stack := replicate (Z.to_nat (1 + 2 + 1 + 0)) (slot ["a"]);
         extended_args := [] |}).
Proof. split; [reflexivity | discriminate]. Qed.

(** C10.  The handler of [UNPACK_EX] takes at most one pending extended
    argument: with two or more it fails its assertion and leaves the stack
    and the arguments as they are; with none or one the assertion holds. *)
Theorem UNPACK_EX_asserts (instr : Instruction) (st : ValueStack) :
  opname instr = "UNPACK_EX" ->
  ((2 <= length (extended_args st))%nat ->
     emit_mutation instr st = (Raises AssertionError, st))
  /\ ((length (extended_args st) <= 1)%nat ->
     (emit_mutation instr st).1 <> Raises AssertionError).
Proof.
  intros Hop. dispatch Hop _UNPACK_EX_handler. unfold _UNPACK_EX_handler.
  split; intros Hlen.
  - mstep. destruct (Z.leb_spec (Z.of_nat (length (extended_args st))) 1) as [Hle|];
      [lia|]. by mstep.
  - mstep. destruct (Z.leb_spec (Z.of_nat (length (extended_args st))) 1) as [|Hgt];
      [|lia]. mstep.
    destruct (Py.sum (extended_args st)) as [total|e] eqn:Hsum; mstep.
    + destruct (arg instr) as [a|]; cbn [Py.add]; mstep; [|done].
      destruct (pop_one_push_n_returns (total + 1 + a) st) as [st' ->].
      by mstep.
    + simpl. intros [= ->]. clear -Hsum.
      assert (forall l acc, acc <> Raises AssertionError ->
                fold_left Py.add l acc <> Raises AssertionError) as Hfold.
      { induction l as [|x l IH]; intros acc Hacc; [done|].
        apply IH. by destruct acc, x. }
      by apply (Hfold (extended_args st) (Returns 0)).
Qed.

(** Two extended arguments before an [UNPACK_EX]. *)
Lemma UNPACK_EX_asserts_witness :
  let st := {| stack := [slot ["a"]]; extended_args := [Some 1; Some 2] |} in
  emit_mutation (Dis.UNPACK_EX 0) st = (Raises AssertionError, st).
Proof.
  apply (proj1 (UNPACK_EX_asserts (Dis.UNPACK_EX 0)
    {| stack := [slot ["a"]]; extended_args := [Some 1; Some 2] |} eq_refl)).
  simpl. lia.
Defined.

(** C9.  A store into an attribute reads the two slots on top of the stack
    and pops neither: whatever the stack holds, the object is the same after
    the instruction as before.  With the owner of the attribute alone in the
    top slot and a slot beneath it, the mutation of the owner from the labels
    of that slot is returned. *)
Theorem STORE_ATTR_keeps_stack (instr : Instruction) :
  opname instr = "STORE_ATTR" ->
  (forall st : ValueStack, (emit_mutation instr st).2 = st)
  /\ (forall (base : list pyval) (S : list string) (owner : string)
             (ext : list (option Z)),
        let st := {| stack := base ++ [slot S; slot [owner]];
                     extended_args := ext |} in
        emit_mutation instr st =
        (Returns (Some {| target := PStr owner; sources := label_set S |}), st)).
Proof.
  intros Hop. dispatch Hop _STORE_ATTR_handler. split.
  - apply read_only_STORE_ATTR.
  - intros base S owner ext st. apply STORE_ATTR_handler_emits.
Qed.

(** [a.y = 1]: the slot of the constant beneath that of [a]. *)
Lemma STORE_ATTR_keeps_stack_witness :
  let st := {| stack := [slot []; slot ["a"]]; extended_args := [] |} in
  emit_mutation (Dis.STORE_ATTR 2 "y") st =
  (Returns (Some {| target := PStr "a"; sources := label_set [] |}), st).
Proof.
  exact (proj2 (STORE_ATTR_keeps_stack (Dis.STORE_ATTR 2 "y") eq_refl)
           [] [] "a" []).
Defined.

(** C3, as the class has it.  The store into an attribute takes its sources
    from the slot beneath the owner, the slot of the value that is stored.
    With that slot on top of the stack, [b.x.y = value] returns the mutation
    of [b] from the labels of the value: from [b] itself in [b.x.y = b]. *)
Theorem store_attribute_sequence :
  (forall (base : list pyval) (S : list string) (ext : list (option Z))
          (i j k : Z),
     emit_mutations
       [Dis.LOAD_NAME i "b"; Dis.LOAD_ATTR j "x"; Dis.STORE_ATTR k "y"]
       {| stack := base ++ [slot S]; extended_args := ext |} =
     (Returns [None; None;
               Some {| target := PStr "b"; sources := label_set S |}],
      {| stack := base ++ [slot S; slot ["b"]]; extended_args := ext |}))
  /\ emit_mutations
       [Dis.LOAD_NAME 0 "b";
        Dis.LOAD_NAME 0 "b"; Dis.LOAD_ATTR 1 "x"; Dis.STORE_ATTR 2 "y"] new =
     (Returns [None; None; None;
               Some {| target := PStr "b"; sources := {[ HStr "b" ]} |}],
      {| stack := [slot ["b"]; slot ["b"]]; extended_args := [] |}).
Proof.
  split; [|by vm_compute].
  intros base S ext i j k. cbn [emit_mutations]. mstep.
  rewrite (emit_mutation_dispatch _ _LOAD_NAME_handler) by by vm_compute.
  unfold _LOAD_NAME_handler. mstep. rewrite push_str. mstep.
  rewrite (emit_mutation_dispatch _ _LOAD_ATTR_handler) by by vm_compute.
  unfold _LOAD_ATTR_handler. mstep.
  rewrite (emit_mutation_dispatch _ _STORE_ATTR_handler) by by vm_compute.
  rewrite <- app_assoc. cbn [app Dis.LOAD_NAME Dis.with_name argrepr].
  change (PList [PStr "b"]) with (slot ["b"]).
  rewrite STORE_ATTR_handler_emits. by mstep.
Qed.

(** C3, as the document has it, fails: on a stack that holds the owner alone
    there is no slot beneath it, [tos1] is [None] and [set(None)] raises. *)
Lemma store_attribute_sequence_empty :
  emit_mutations
    [Dis.LOAD_NAME 0 "b"; Dis.LOAD_ATTR 1 "x"; Dis.STORE_ATTR 2 "y"] new =
    (Raises TypeError, {| stack := [slot ["b"]]; extended_args := [] |})
  /\ forall st',
       emit_mutations
         [Dis.LOAD_NAME 0 "b"; Dis.LOAD_ATTR 1 "x"; Dis.STORE_ATTR 2 "y"] new <>
       (Returns [None; None;
                 Some {| target := PStr "b"; sources := {[ HStr "b" ]} |}], st').
Proof. split; [by vm_compute | discriminate]. Qed.

(** ** The stack holds lists of labels *)

Section invariant.
Implicit Types (v : pyval) (st : ValueStack).

Lemma list_pop_Some {A} (l r : list A) (x : A) :
  Py.list_pop l = Some (x, r) -> l = r ++ [x].
Proof.
  destruct l as [|y l _] using rev_ind; [done|].
  rewrite list_pop_snoc. by intros [= -> ->].
Qed.

Lemma list_getitem_elem_of {A} (l : list A) (i : Z) (x : A) :
  Py.list_getitem l i = Some x -> x ∈ l.
Proof.
  unfold Py.list_getitem. intros Hx.
  repeat case_match; try done; by eapply list_elem_of_lookup_2.
Qed.

Lemma preserves_ret {A} (a : A) (Q : A -> Prop) :
  Q a -> preserves (mret a) Q.
Proof. intros Ha st Hst. split; [done|]. by intros a' [= <-]. Qed.

Lemma preserves_lift {A} (o : outcome A) (Q : A -> Prop) :
  (forall a, o = Returns a -> Q a) -> preserves (lift o) Q.
Proof. intros Ho st Hst. split; [done|]. intros a Ha. by apply Ho. Qed.

Lemma preserves_weaken {A} (m : M A) (P Q : A -> Prop) :
  preserves m P -> (forall a, P a -> Q a) -> preserves m Q.
Proof.
  intros Hm HPQ st Hst. destruct (Hm st Hst) as [Hok HP]. split; [done|].
  intros a Ha. by apply HPQ, HP.
Qed.

Lemma preserves_bind {A B} (m : M A) (f : A -> M B) (P : A -> Prop)
    (Q : B -> Prop) :
  preserves m P -> (forall a, P a -> preserves (f a) Q) ->
  preserves (m ≫= f) Q.
Proof.
  intros Hm Hf st Hst. rewrite bind_eq.
  destruct (Hm st Hst) as [Hok HP].
  destruct (m st) as [[a|e] st']; simpl in *.
  - by apply Hf; [apply HP|].
  - split; [done|]. by intros a.
Qed.

Lemma preserves_try_except {A} (body handler : M A) (Q : A -> Prop) :
  preserves body Q -> preserves handler Q ->
  preserves (try_except_IndexError body handler) Q.
Proof.
  intros Hbody Hhandler st Hst. unfold try_except_IndexError.
  destruct (Hbody st Hst) as [Hok HQ].
  destruct (body st) as [[a|e] st']; simpl in *; [done|].
  destruct e; try (split; [done|by intros a]). by apply Hhandler.
Qed.

Lemma preserves_for_range {T} (k : nat) (body : T -> M T) (P : T -> Prop)
    (acc : T) :
  (forall acc, P acc -> preserves (body acc) P) -> P acc ->
  preserves (for_range k body acc) P.
Proof.
  intros Hbody. revert acc. induction k as [|k IH]; intros acc Hacc.
  - by apply preserves_ret.
  - cbn [for_range]. eapply preserves_bind; [by apply Hbody|]. apply IH.
Qed.

Lemma preserves_assert (b : bool) : preserves (assert b) (fun _ => True).
Proof. destruct b; by intros st Hst. Qed.

Lemma preserves_range (n : option Z) : preserves (range n) (fun _ => True).
Proof. destruct n; by intros st Hst. Qed.

Lemma preserves_stack_getitem (i : Z) :
  preserves (stack_getitem i) (fun v => is_slot v = true).
Proof.
  intros st Hst. unfold stack_getitem.
  destruct (Py.list_getitem (stack st) i) as [v|] eqn:Hv; simpl.
  - split; [done|]. intros a [= <-].
    apply list_getitem_elem_of in Hv.
    unfold stack_ok in Hst. rewrite Forall_forall in Hst. by apply Hst.
  - split; [done|]. by intros a.
Qed.

Lemma preserves_stack_pop :
  preserves stack_pop (fun v => is_slot v = true).
Proof.
  intros st Hst. unfold stack_pop.
  destruct (Py.list_pop (stack st)) as [[v rest]|] eqn:Hpop; simpl.
  - apply list_pop_Some in Hpop. unfold stack_ok in *. rewrite Hpop in Hst.
    apply Forall_app in Hst as [Hrest Hv]. split; [done|].
    intros a [= <-]. by inversion Hv.
  - split; [done|]. by intros a.
Qed.

Lemma preserves_stack_append (l : list pyval) :
  forallb is_label l = true ->
  preserves (stack_append (PList l)) (fun _ => True).
Proof.
  intros Hl st Hst. split; [|done]. unfold stack_ok in *. simpl.
  apply Forall_app. split; [done|]. by constructor.
Qed.

(** The extended arguments are no part of the stack. *)
Lemma preserves_get_extended_args :
  preserves get_extended_args (fun _ => True).
Proof. intros st Hst. by split. Qed.

Lemma preserves_extended_args_append (x : option Z) :
  preserves (extended_args_append x) (fun _ => True).
Proof. intros st Hst. by split. Qed.

Lemma preserves_extended_args_clear :
  preserves extended_args_clear (fun _ => True).
Proof. intros st Hst. by split. Qed.

Lemma preserves_tos : preserves tos slot_or_None.
Proof.
  apply preserves_try_except.
  - eapply preserves_weaken; [apply preserves_stack_getitem|]. by right.
  - apply preserves_ret. by left.
Qed.

Lemma preserves_tos1 : preserves tos1 slot_or_None.
Proof.
  apply preserves_try_except.
  - eapply preserves_weaken; [apply preserves_stack_getitem|]. by right.
  - apply preserves_ret. by left.
Qed.

(** What [_pop(n)] answers: a slot when [n] is 1, else the list of the slots,
    or [None]. *)
Lemma preserves_pop (n : Z) :
  preserves (_pop n)
    (fun v => if n =? 1 then slot_or_None v
              else v = PNone \/
                   exists l, v = PList l /\ Forall (fun x => is_slot x = true) l).
Proof.
  unfold _pop. apply preserves_try_except.
  - destruct (n =? 1).
    + eapply preserves_weaken; [apply preserves_stack_pop|]. by right.
    + eapply preserves_bind; [apply preserves_range|]. intros k _.
      eapply preserves_bind.
      * apply (preserves_for_range k _ (Forall (fun x => is_slot x = true))).
        -- intros acc Hacc.
           eapply preserves_bind; [apply preserves_stack_pop|].
           intros v Hv. apply preserves_ret. apply Forall_app. split; [done|].
           by constructor.
        -- constructor.
      * intros l Hl. apply preserves_ret. right. eauto.
  - apply preserves_ret. destruct (n =? 1); by left.
Qed.

Lemma preserves_pop1 : preserves (_pop 1) slot_or_None.
Proof. apply (preserves_pop 1). Qed.

(** [_push] of the placeholder, of a label, or of a list of labels. *)
Lemma preserves_push v :
  slot_or_None v \/ is_label v = true ->
  preserves (_push v) (fun _ => True).
Proof.
  intros [[-> | Hv] | Hv].
  - by apply (preserves_stack_append []).
  - destruct v; try done. by apply preserves_stack_append.
  - destruct v as [|s|]; try done. by apply (preserves_stack_append [PStr s]).
Qed.

End invariant.

Section handlers_invariant.
Implicit Types (instr : Instruction).

Lemma preserves_replace_tos (v : pyval) :
  slot_or_None v \/ is_label v = true ->
  preserves (_replace_tos v) (fun _ => True).
Proof.
  intros Hv. eapply preserves_bind; [apply preserves_pop1|].
  intros _ _. by apply preserves_push.
Qed.

Lemma preserves_pop_n_push_one (n : option Z) :
  preserves (_pop_n_push_one n) (fun _ => True).
Proof.
  eapply preserves_bind; [apply preserves_range|]. intros k _.
  eapply preserves_bind.
  - apply (preserves_for_range k _ (fun l => forallb is_label l = true));
      [|done].
    intros elements Helements.
    eapply preserves_bind; [apply preserves_pop1|]. intros v Hv.
    eapply preserves_bind; [apply (preserves_lift _ (fun l => v = PList l))|].
    + intros l Hl. destruct Hv as [-> | Hv]; [done|].
      destruct v; try done. by injection Hl as ->.
    + intros l ->. apply preserves_ret.
      destruct Hv as [|Hv]; [done|]. rewrite forallb_app.
      by apply andb_true_intro.
  - intros elements Helements. apply preserves_push. left. by right.
Qed.

Lemma preserves_pop_one_push_n (n : option Z) :
  preserves (_pop_one_push_n n) (fun _ => True).
Proof.
  eapply preserves_bind; [apply preserves_pop1|]. intros v Hv.
  eapply preserves_bind; [apply preserves_range|]. intros k _.
  apply (preserves_for_range k _ (fun _ => True)); [|done].
  intros _ _. apply preserves_push. by left.
Qed.

(** A handler that pops, pushes or reads as the handlers do. *)
Ltac preserves_step :=
  first
    [ apply preserves_ret; exact I
    | apply preserves_pop_n_push_one
    | apply preserves_pop_one_push_n
    | eapply preserves_bind;
        [ first [ apply preserves_pop1 | apply preserves_tos
                | apply preserves_tos1 | apply preserves_assert
                | apply preserves_get_extended_args
                | apply preserves_extended_args_append
                | apply preserves_extended_args_clear
                | apply preserves_pop_n_push_one
                | apply preserves_pop_one_push_n
                | apply (preserves_lift _ (fun _ => True)); done ]
        | intros ? ? ]
    | eapply (preserves_bind _ _ (fun _ => True)); [|intros ? ?] ].

Lemma preserves_ROT_TWO instr :
  preserves (_ROT_TWO_handler instr) (fun _ => True).
Proof.
  eapply preserves_bind; [apply (preserves_pop 2)|]. intros popped Hpopped.
  eapply preserves_bind.
  - apply (preserves_lift _
      (fun p => is_slot p.1 = true /\ is_slot p.2 = true)).
    intros [a b] Hab. simpl in Hpopped.
    destruct Hpopped as [-> | (l & -> & Hl)]; [done|].
    destruct l as [|a' [|b' [|]]]; try done.
    injection Hab as -> ->.
    apply Forall_cons in Hl as [Ha Hl]. by apply Forall_cons in Hl as [Hb _].
  - intros [a b] [Ha Hb]. simpl in *.
    eapply preserves_bind; [apply preserves_push; left; by right|].
    intros _ _.
    eapply preserves_bind; [apply preserves_push; left; by right|].
    intros _ _. by apply preserves_ret.
Qed.

Lemma preserves_DUP_TOP instr :
  preserves (_DUP_TOP_handler instr) (fun _ => True).
Proof.
  eapply preserves_bind; [apply preserves_tos|]. intros v Hv.
  eapply preserves_bind; [apply preserves_push; by left|].
  intros _ _. by apply preserves_ret.
Qed.

Lemma preserves_STORE_NAME instr :
  preserves (_STORE_NAME_handler instr) (fun _ => True).
Proof. unfold _STORE_NAME_handler. repeat preserves_step. Qed.

Lemma preserves_UNPACK_EX instr :
  preserves (_UNPACK_EX_handler instr) (fun _ => True).
Proof.
  unfold _UNPACK_EX_handler. repeat preserves_step.
Qed.

Lemma preserves_load (s : string) :
  preserves (_push (PStr s);; mret (@None Mutation)) (fun _ => True).
Proof.
  eapply preserves_bind; [apply preserves_push; by right|].
  intros _ _. by apply preserves_ret.
Qed.

Lemma preserves_EXTENDED_ARG instr :
  preserves (_EXTENDED_ARG_handler instr) (fun _ => True).
Proof. unfold _EXTENDED_ARG_handler. repeat preserves_step. Qed.

(** Each handler of the class keeps lists of labels on the stack. *)
Lemma preserves_handlers :
  Forall (fun nh => forall instr, preserves (nh.2 instr) (fun _ => True))
    handlers.
Proof.
  unfold handlers.
  repeat (apply Forall_cons; split;
          [intros instr; cbn [snd]|]); [..|by apply Forall_nil].
  all: try apply preserves_ROT_TWO; try apply preserves_DUP_TOP;
    try apply preserves_STORE_NAME; try apply preserves_UNPACK_EX;
    try apply preserves_EXTENDED_ARG; try apply preserves_load.
  all: try (by apply preserves_ret).
  all: try (eapply preserves_bind; [apply preserves_push; left; by left|];
            intros _ _; by apply preserves_ret).
  all: unfold _POP_TOP_handler, _BINARY_operation_handler,
    _RETURN_VALUE_handler, _UNPACK_SEQUENCE_handler, _STORE_ATTR_handler,
    _BUILD_TUPLE_handler, _BUILD_LIST_handler, _BUILD_SET_handler,
    _BUILD_MAP_handler, _BUILD_CONST_KEY_MAP_handler, _LOAD_METHOD_handler,
    _BUILD_TUPLE_handler.
  all: repeat preserves_step.
Qed.

Lemma preserves_emit_mutation instr :
  preserves (emit_mutation instr) (fun _ => True).
Proof.
  unfold emit_mutation. destruct (String.prefix _ _).
  - unfold _BINARY_operation_handler. repeat preserves_step.
  - eapply preserves_bind; [|intros h Hh; apply Hh].
    unfold getattr.
    destruct (_ !! _) as [h|] eqn:Hh; [|by intros st Hst].
    apply preserves_ret. apply elem_of_list_to_map_2 in Hh.
    pose proof preserves_handlers as Hall. rewrite Forall_forall in Hall.
    apply (Hall _ Hh).
Qed.

Lemma preserves_emit_mutations (instrs : list Instruction) :
  preserves (emit_mutations instrs) (fun _ => True).
Proof.
  induction instrs as [|instr instrs IH]; [by apply preserves_ret|].
  cbn [emit_mutations].
  eapply preserves_bind; [apply preserves_emit_mutation|]. intros r _.
  eapply preserves_bind; [apply IH|]. intros rs _. by apply preserves_ret.
Qed.

End handlers_invariant.

(** C8.  Whatever instructions have been processed since the object was
    made, and whether the last of them returned or raised, each value of the
    stack is a list of labels: no label stands there by itself, and the
    placeholder is neither on the stack nor in a slot.  Pushing the
    placeholder appends the empty slot. *)
Theorem stack_holds_slots (instrs : list Instruction) (st : ValueStack) :
  Forall (fun v => exists S : list string, v = slot S)
    (stack (emit_mutations instrs new).2)
  /\ Forall (fun v => v <> _placeholder /\ is_label v = false /\
                      forall l, v = PList l -> _placeholder ∉ l)
       (stack (emit_mutations instrs new).2)
  /\ _push _placeholder st =
     (Returns tt,
      {| stack := stack st ++ [slot []]; extended_args := extended_args st |}).
Proof.
  assert (Forall (fun v => exists S : list string, v = slot S)
            (stack (emit_mutations instrs new).2)) as Hslots.
  { destruct (preserves_emit_mutations instrs new) as [Hok _];
      [by apply Forall_nil|].
    eapply Forall_impl; [exact Hok|]. apply is_slot_inv. }
  split; [done|]. split; [|reflexivity].
  eapply Forall_impl; [exact Hslots|]. intros v [S ->].
  split; [done|]. split; [done|].
  intros l [= <-] Hin. apply list_elem_of_fmap in Hin as (s & Hs & _).
  discriminate Hs.
Qed.

(** * Further properties of the class *)

(** ** Pushing and popping *)

Lemma for_range_add {T} (j k : nat) (body : T -> M T) (acc : T) (st : ValueStack) :
  for_range (j + k) body acc st =
  (acc' ← for_range j body acc; for_range k body acc') st.
Proof.
  revert acc st. induction j as [|j IH]; intros acc st; [done|].
  cbn [Nat.add for_range]. rewrite !bind_eq.
  destruct (body acc st) as [[acc'|e] st']; [|done].
  by rewrite IH, bind_eq.
Qed.

(** The rounds of [_pop(n)] on a stack that has the elements. *)
Lemma pop_loop (items base acc : list pyval) (ext : list (option Z)) :
  for_range (length items) (fun l => v ← stack_pop; mret (l ++ [v])) acc
    {| stack := base ++ items; extended_args := ext |} =
  (Returns (acc ++ reverse items), {| stack := base; extended_args := ext |}).
Proof.
  revert acc. induction items as [|x items IH] using rev_ind; intros acc.
  - cbn. by rewrite !app_nil_r.
  - rewrite length_app, Nat.add_1_r, app_assoc. cbn [for_range]. mstep.
    unfold stack_pop at 1. cbn [stack extended_args].
    rewrite list_pop_snoc. mstep.
    rewrite IH, reverse_snoc. by rewrite <- app_assoc.
Qed.

(** The rounds of [_pop(n)] on a stack that runs out: the last round raises,
    and the elements that were there are gone. *)
Lemma pop_loop_short (k : nat) (s acc : list pyval) (ext : list (option Z)) :
  (length s < k)%nat ->
  for_range k (fun l => v ← stack_pop; mret (l ++ [v])) acc
    {| stack := s; extended_args := ext |} =
  (Raises IndexError, {| stack := []; extended_args := ext |}).
Proof.
  intros Hlen.
  replace k with (length s + S (k - S (length s)))%nat by lia.
  rewrite for_range_add, bind_eq.
  pose proof (pop_loop s [] acc ext) as Hloop. cbn [app] in Hloop.
  by rewrite Hloop.
Qed.

Lemma pop_short (n : Z) (s : list pyval) (ext : list (option Z)) :
  Z.of_nat (length s) < n ->
  _pop n {| stack := s; extended_args := ext |} =
  (Returns PNone, {| stack := []; extended_args := ext |}).
Proof.
  intros Hlen. unfold _pop, try_except_IndexError.
  destruct (Z.eqb_spec n 1) as [-> | Hn].
  - destruct s; [done | simpl in Hlen; lia].
  - mstep. rewrite pop_loop_short by lia. by mstep.
Qed.

Lemma pop_many (n : Z) (base items : list pyval) (ext : list (option Z)) :
  n <> 1 -> Z.to_nat n = length items ->
  _pop n {| stack := base ++ items; extended_args := ext |} =
  (Returns (PList (reverse items)), {| stack := base; extended_args := ext |}).
Proof.
  intros Hn Hlen. unfold _pop, try_except_IndexError.
  destruct (Z.eqb_spec n 1) as [|_]; [done|].
  mstep. rewrite Hlen, pop_loop. by mstep.
Qed.

(** Push, then pop: the value comes back as a slot, the placeholder as the
    empty slot and a single label as the slot of that label, and the object is
    as before. *)
Theorem push_pop_round_trip (st : ValueStack) :
  (forall l : list pyval,
     (_push (PList l);; _pop 1) st = (Returns (PList l), st))
  /\ (forall s : string,
        (_push (PStr s);; _pop 1) st = (Returns (slot [s]), st))
  /\ (_push _placeholder;; _pop 1) st = (Returns (slot []), st).
Proof.
  destruct st as [s ext]. repeat split; intros; mstep.
  - rewrite push_list. mstep. by rewrite pop_last.
  - rewrite push_str. mstep. by rewrite pop_last.
  - rewrite push_placeholder. mstep. by rewrite pop_last.
Qed.

(** [_pop(n)], for [n] other than 1, returns the list of the [n] values on
    top of the stack, the topmost first, and removes them; none when [n] is
    zero or negative. *)
Theorem pop_n_topmost_first (n : Z) (base items : list pyval)
    (ext : list (option Z)) :
  n <> 1 -> Z.to_nat n = length items ->
  _pop n {| stack := base ++ items; extended_args := ext |} =
  (Returns (PList (reverse items)), {| stack := base; extended_args := ext |})
  /\ length (reverse items) = Z.to_nat n.
Proof.
  intros Hn Hlen. split; [by apply pop_many|]. by rewrite length_reverse.
Qed.

(** Two values, the top one first. *)
Lemma pop_n_topmost_first_witness :
  _pop 2 {| stack := [slot ["c"]; slot ["a"]; slot ["b"]];
            extended_args := [] |} =
  (Returns (PList [slot ["b"]; slot ["a"]]),
   {| stack := [slot ["c"]]; extended_args := [] |}).
Proof.
  apply (pop_n_topmost_first 2 [slot ["c"]] [slot ["a"]; slot ["b"]] []).
  - lia.
  - reflexivity.
Defined.

(** [_pop(n)] on a stack of fewer than [n] values returns [None], and the
    values that were there are lost: the stack is empty afterwards. *)
Theorem pop_underflow_empties (n : Z) (s : list pyval) (ext : list (option Z)) :
  Z.of_nat (length s) < n ->
  _pop n {| stack := s; extended_args := ext |} =
  (Returns PNone, {| stack := []; extended_args := ext |}).
Proof. apply pop_short. Qed.

(** Three values asked of a stack of two. *)
Lemma pop_underflow_empties_witness :
  _pop 3 {| stack := [slot ["a"]; slot ["b"]]; extended_args := [Some 1] |} =
  (Returns PNone, {| stack := []; extended_args := [Some 1] |}).
Proof.
  apply (pop_underflow_empties 3 [slot ["a"]; slot ["b"]] [Some 1]).
  simpl. lia.
Defined.

(** [_replace_tos] puts its argument, as a slot, in the place of the top of
    the stack; on an empty stack there is nothing to replace and the slot is
    pushed all the same. *)
Theorem replace_tos_replaces (l : list pyval) (ext : list (option Z)) :
  (forall (base : list pyval) (v : pyval),
     _replace_tos (PList l)
       {| stack := base ++ [v]; extended_args := ext |} =
     (Returns tt, {| stack := base ++ [PList l]; extended_args := ext |}))
  /\ _replace_tos (PList l) {| stack := []; extended_args := ext |} =
     (Returns tt, {| stack := [PList l]; extended_args := ext |}).
Proof.
  split; [|reflexivity]. intros base v. unfold _replace_tos. mstep.
  rewrite pop_last. mstep. by rewrite push_list.
Qed.

(** ** The instructions that move slots *)

(** Splits [H : x ∈ [a; b; ...]] into the cases [x = a], [x = b], ... *)
Ltac elem_of_cases H :=
  repeat (apply elem_of_cons in H as [H | H]); [..|by apply elem_of_nil in H].

Lemma ROT_TWO_handler_swaps (instr : Instruction) (base l1 l2 : list pyval)
    (ext : list (option Z)) :
  _ROT_TWO_handler instr
    {| stack := base ++ [PList l1; PList l2]; extended_args := ext |} =
  (Returns None,
   {| stack := base ++ [PList l2; PList l1]; extended_args := ext |}).
Proof.
  unfold _ROT_TWO_handler. mstep.
  rewrite (pop_many 2 base [PList l1; PList l2]) by done. mstep.
  change (Py.unpack2 (PList (reverse [PList l1; PList l2])))
    with (Returns (PList l2, PList l1)).
  mstep. rewrite push_list. mstep. rewrite push_list. mstep.
  by rewrite <- app_assoc.
Qed.

(** [ROT_TWO] swaps the two slots on top of the stack and returns no
    mutation; done twice, it leaves the stack as it was. *)
Theorem ROT_TWO_swaps (instr : Instruction) (base l1 l2 : list pyval)
    (ext : list (option Z)) :
  opname instr = "ROT_TWO" ->
  let st := {| stack := base ++ [PList l1; PList l2]; extended_args := ext |} in
  emit_mutation instr st =
    (Returns None,
     {| stack := base ++ [PList l2; PList l1]; extended_args := ext |})
  /\ emit_mutations [instr; instr] st = (Returns [None; None], st).
Proof.
  intros Hop st. unfold st. cbn [emit_mutations].
  dispatch Hop _ROT_TWO_handler. split.
  - apply ROT_TWO_handler_swaps.
  - mstep. rewrite ROT_TWO_handler_swaps. mstep.
    rewrite ROT_TWO_handler_swaps. by mstep.
Qed.

(** [a, b = b, a], once the two values are loaded. *)
Lemma ROT_TWO_swaps_witness :
  emit_mutation Dis.ROT_TWO
    {| stack := [slot ["b"]; slot ["a"]]; extended_args := [] |} =
  (Returns None, {| stack := [slot ["a"]; slot ["b"]]; extended_args := [] |}).
Proof.
  exact (proj1 (ROT_TWO_swaps Dis.ROT_TWO [] [PStr "b"] [PStr "a"] [] eq_refl)).
Defined.

(** [ROT_TWO] on a stack of fewer than two slots raises a [TypeError], from
    the unpacking of the [None] that [_pop(2)] returned, and the slot that was
    there is lost. *)
Theorem ROT_TWO_underflow (instr : Instruction) (s : list pyval)
    (ext : list (option Z)) :
  opname instr = "ROT_TWO" ->
  (length s < 2)%nat ->
  emit_mutation instr {| stack := s; extended_args := ext |} =
  (Raises TypeError, {| stack := []; extended_args := ext |}).
Proof.
  intros Hop Hlen. dispatch Hop _ROT_TWO_handler.
  unfold _ROT_TWO_handler. mstep. rewrite pop_short by lia. by mstep.
Qed.

(** One slot only. *)
Lemma ROT_TWO_underflow_witness :
  emit_mutation Dis.ROT_TWO
    {| stack := [slot ["a"]]; extended_args := [] |} =
  (Raises TypeError, {| stack := []; extended_args := [] |}).
Proof.
  apply (ROT_TWO_underflow Dis.ROT_TWO [slot ["a"]] []).
  - reflexivity.
  - simpl. lia.
Defined.

(** [DUP_TOP] pushes the slot that is on top once more, and a [POP_TOP]
    after it undoes it. *)
Theorem DUP_TOP_duplicates (dup pop : Instruction) (base l : list pyval)
    (ext : list (option Z)) :
  opname dup = "DUP_TOP" ->
  opname pop = "POP_TOP" ->
  let st := {| stack := base ++ [PList l]; extended_args := ext |} in
  emit_mutation dup st =
    (Returns None,
     {| stack := base ++ [PList l; PList l]; extended_args := ext |})
  /\ emit_mutations [dup; pop] st = (Returns [None; None], st).
Proof.
  intros Hdup Hpop st. unfold st. cbn [emit_mutations].
  dispatch Hdup _DUP_TOP_handler. dispatch Hpop _POP_TOP_handler.
  unfold _DUP_TOP_handler, _POP_TOP_handler. split.
  - mstep. rewrite tos_last. mstep. rewrite push_list. mstep.
    by rewrite <- app_assoc.
  - mstep. rewrite tos_last. mstep. rewrite push_list. mstep.
    by rewrite pop_last.
Qed.

(** The slot of [a], twice. *)
Lemma DUP_TOP_duplicates_witness :
  emit_mutation Dis.DUP_TOP
    {| stack := [slot ["a"]]; extended_args := [] |} =
  (Returns None, {| stack := [slot ["a"]; slot ["a"]]; extended_args := [] |}).
Proof.
  exact (proj1 (DUP_TOP_duplicates Dis.DUP_TOP Dis.POP_TOP [] [PStr "a"] []
                  eq_refl eq_refl)).
Defined.

(** [POP_TOP], [RETURN_VALUE] and [LOAD_METHOD] remove the value on top of
    the stack, whatever it is, and return no mutation. *)
Theorem pop_instructions (instr : Instruction) (base : list pyval) (v : pyval)
    (ext : list (option Z)) :
  opname instr ∈ ["POP_TOP"; "RETURN_VALUE"; "LOAD_METHOD"] ->
  emit_mutation instr {| stack := base ++ [v]; extended_args := ext |} =
  (Returns None, {| stack := base; extended_args := ext |}).
Proof.
  intros Hop. elem_of_cases Hop.
  - dispatch Hop _POP_TOP_handler. unfold _POP_TOP_handler. mstep.
    by rewrite pop_last.
  - dispatch Hop _RETURN_VALUE_handler. unfold _RETURN_VALUE_handler. mstep.
    by rewrite pop_last.
  - dispatch Hop _LOAD_METHOD_handler. unfold _LOAD_METHOD_handler. mstep.
    by rewrite pop_last.
Qed.

(** The return of the value of [a]. *)
Lemma pop_instructions_witness :
  emit_mutation Dis.RETURN_VALUE
    {| stack := [slot ["b"]; slot ["a"]]; extended_args := [] |} =
  (Returns None, {| stack := [slot ["b"]]; extended_args := [] |}).
Proof.
  apply (pop_instructions Dis.RETURN_VALUE [slot ["b"]] (slot ["a"]) []).
  apply list_elem_of_further, list_elem_of_here.
Defined.

(** The unary operations and [CALL_METHOD] leave the object as it is and
    return no mutation. *)
Theorem unary_and_call_are_noops (instr : Instruction) (st : ValueStack) :
  opname instr ∈ ["UNARY_POSITIVE"; "UNARY_NEGATIVE"; "UNARY_NOT";
                  "UNARY_INVERT"; "CALL_METHOD"] ->
  emit_mutation instr st = (Returns None, st).
Proof.
  intros Hop. elem_of_cases Hop.
  - by dispatch Hop _UNARY_POSITIVE_handler.
  - by dispatch Hop _UNARY_NEGATIVE_handler.
  - by dispatch Hop _UNARY_NOT_handler.
  - by dispatch Hop _UNARY_INVERT_handler.
  - by dispatch Hop _CALL_METHOD_handler.
Qed.

(** [not a]. *)
Lemma unary_and_call_are_noops_witness :
  emit_mutation (Dis.no_arg "UNARY_NOT")
    {| stack := [slot ["a"]]; extended_args := [] |} =
  (Returns None, {| stack := [slot ["a"]]; extended_args := [] |}).
Proof.
  apply unary_and_call_are_noops.
  do 2 apply list_elem_of_further. apply list_elem_of_here.
Defined.

(** ** The stores *)

Lemma STORE_NAME_handler_emits (instr : Instruction) (base : list pyval)
    (S : list string) (ext : list (option Z)) :
  _STORE_NAME_handler instr
    {| stack := base ++ [slot S]; extended_args := ext |} =
  (Returns (Some {| target := argval instr; sources := label_set S |}),
   {| stack := base; extended_args := ext |}).
Proof.
  unfold _STORE_NAME_handler. mstep. rewrite tos_last. mstep.
  rewrite set_slot. mstep. rewrite pop_last. by mstep.
Qed.

(** [STORE_NAME] and [STORE_FAST] pop the slot on top of the stack and return
    the mutation of the name that is stored into, with the labels of the slot
    for sources: a label is a source when it is in the slot, however many
    times. *)
Theorem store_name_emits (instr : Instruction) (base : list pyval)
    (S : list string) (ext : list (option Z)) :
  opname instr ∈ ["STORE_NAME"; "STORE_FAST"] ->
  emit_mutation instr {| stack := base ++ [slot S]; extended_args := ext |} =
    (Returns (Some {| target := argval instr; sources := label_set S |}),
     {| stack := base; extended_args := ext |})
  /\ forall s : string, HStr s ∈ label_set S <-> s ∈ S.
Proof.
  intros Hop. split; [|intros s; apply elem_of_label_set].
  elem_of_cases Hop.
  - dispatch Hop _STORE_NAME_handler. apply STORE_NAME_handler_emits.
  - dispatch Hop _STORE_FAST_handler. apply STORE_NAME_handler_emits.
Qed.

(** [c = a + b], once the sum is on the stack. *)
Lemma store_name_emits_witness :
  emit_mutation (Dis.STORE_FAST 2 "c")
    {| stack := [slot ["b"; "a"]]; extended_args := [] |} =
  (Returns (Some {| target := PStr "c"; sources := label_set ["b"; "a"] |}),
   {| stack := []; extended_args := [] |}).
Proof.
  apply (store_name_emits (Dis.STORE_FAST 2 "c") [] ["b"; "a"] []).
  apply list_elem_of_further, list_elem_of_here.
Defined.

(** On an empty stack [STORE_NAME] and [STORE_FAST] raise a [TypeError], from
    the set of the [None] that [tos] returned; the object is as before. *)
Theorem store_name_empty_stack (instr : Instruction) (ext : list (option Z)) :
  opname instr ∈ ["STORE_NAME"; "STORE_FAST"] ->
  emit_mutation instr {| stack := []; extended_args := ext |} =
  (Raises TypeError, {| stack := []; extended_args := ext |}).
Proof.
  intros Hop. elem_of_cases Hop.
  - by dispatch Hop _STORE_NAME_handler.
  - by dispatch Hop _STORE_FAST_handler.
Qed.

(** A store as the first instruction. *)
Lemma store_name_empty_stack_witness :
  emit_mutation (Dis.STORE_NAME 0 "a") new = (Raises TypeError, new).
Proof.
  apply (store_name_empty_stack (Dis.STORE_NAME 0 "a") []).
  apply list_elem_of_here.
Defined.

(** [STORE_ATTR] asserts that the slot on top holds one label, the owner of
    the attribute: on a slot of none or of several the assertion fails, and on
    an empty stack the length of [None] is a [TypeError].  The object is as
    before. *)
Theorem STORE_ATTR_wants_one_owner (instr : Instruction)
    (ext : list (option Z)) :
  opname instr = "STORE_ATTR" ->
  (forall (base : list pyval) (S : list string),
     length S <> 1%nat ->
     emit_mutation instr {| stack := base ++ [slot S]; extended_args := ext |} =
     (Raises AssertionError,
      {| stack := base ++ [slot S]; extended_args := ext |}))
  /\ emit_mutation instr {| stack := []; extended_args := ext |} =
     (Raises TypeError, {| stack := []; extended_args := ext |}).
Proof.
  intros Hop. dispatch Hop _STORE_ATTR_handler. split; [|done].
  intros base S Hlen. unfold _STORE_ATTR_handler. mstep.
  rewrite tos_last. mstep. rewrite len_slot. mstep.
  destruct (Z.eqb_spec (Z.of_nat (length S)) 1) as [Heq|_]; [lia|]. by mstep.
Qed.

(** The sum of [a] and [b] is no owner. *)
Lemma STORE_ATTR_wants_one_owner_witness :
  let st := {| stack := [slot []; slot ["b"; "a"]]; extended_args := [] |} in
  emit_mutation (Dis.STORE_ATTR 0 "x") st = (Raises AssertionError, st).
Proof.
  apply (proj1 (STORE_ATTR_wants_one_owner (Dis.STORE_ATTR 0 "x") [] eq_refl)
           [slot []] ["b"; "a"]).
  simpl. lia.
Defined.

(** ** Unpacking and building *)

(** [UNPACK_SEQUENCE] replaces the slot on top of the stack by as many copies
    of it as the instruction counts: the depth of the stack grows by the
    count less one. *)
Theorem UNPACK_SEQUENCE_spreads (instr : Instruction) (count : Z)
    (base l : list pyval) (ext : list (option Z)) :
  opname instr = "UNPACK_SEQUENCE" ->
  arg instr = Some count ->
  0 <= count ->
  let before := {| stack := base ++ [PList l]; extended_args := ext |} in
  let after := {| stack := base ++ replicate (Z.to_nat count) (PList l);
                  extended_args := ext |} in
  emit_mutation instr before = (Returns None, after)
  /\ Z.of_nat (length (stack after)) =
     Z.of_nat (length (stack before)) + (count - 1).
Proof.
  intros Hop Harg Hcount before after. split.
  - dispatch Hop _UNPACK_SEQUENCE_handler. unfold _UNPACK_SEQUENCE_handler.
    rewrite Harg. mstep. unfold before. by rewrite pop_one_push_n_last.
  - unfold after, before. cbn [stack].
    rewrite !length_app, length_replicate. simpl length. lia.
Qed.

(** [x, y, z = t]. *)
Lemma UNPACK_SEQUENCE_spreads_witness :
  emit_mutation (Dis.UNPACK_SEQUENCE 3)
    {| stack := [slot ["t"]]; extended_args := [] |} =
  (Returns None,
   {| stack := [slot ["t"]; slot ["t"]; slot ["t"]]; extended_args := [] |}).
Proof.
  apply (UNPACK_SEQUENCE_spreads (Dis.UNPACK_SEQUENCE 3) 3 [] [PStr "t"] []).
  - reflexivity.
  - reflexivity.
  - lia.
Defined.

Lemma build_merges (n : option Z) (slots : list (list string))
    (base : list pyval) (ext : list (option Z)) :
  n = Some (Z.of_nat (length slots)) ->
  (_pop_n_push_one n;; mret (@None Mutation))
    {| stack := base ++ (slot <$> slots); extended_args := ext |} =
  (Returns None,
   {| stack := base ++ [slot (concat (reverse slots))];
      extended_args := ext |}).
Proof. intros ->. mstep. rewrite pop_n_push_one_slots. by mstep. Qed.

(** [BUILD_TUPLE], [BUILD_LIST] and [BUILD_SET] replace the slots of the
    items, as many as the instruction counts, by one slot that holds the
    labels of all of them; with no item the slot is empty. *)
Theorem build_sequence_merges (instr : Instruction)
    (slots : list (list string)) (base : list pyval) (ext : list (option Z)) :
  opname instr ∈ ["BUILD_TUPLE"; "BUILD_LIST"; "BUILD_SET"] ->
  arg instr = Some (Z.of_nat (length slots)) ->
  emit_mutation instr
    {| stack := base ++ (slot <$> slots); extended_args := ext |} =
    (Returns None,
     {| stack := base ++ [slot (concat (reverse slots))];
        extended_args := ext |})
  /\ Py.set (slot (concat (reverse slots))) =
     Returns (⋃ (label_set <$> slots)).
Proof.
  intros Hop Harg. split.
  - elem_of_cases Hop.
    + dispatch Hop _BUILD_TUPLE_handler. by apply build_merges.
    + dispatch Hop _BUILD_LIST_handler.
      unfold _BUILD_LIST_handler. rewrite bind_eq. unfold _BUILD_TUPLE_handler.
      rewrite build_merges by done. by mstep.
    + dispatch Hop _BUILD_SET_handler.
      unfold _BUILD_SET_handler. rewrite bind_eq. unfold _BUILD_TUPLE_handler.
      rewrite build_merges by done. by mstep.
  - rewrite set_slot.
    by rewrite label_set_concat, fmap_reverse, union_list_reverse_L.
Qed.

(** [(a, b, c)]. *)
Lemma build_sequence_merges_witness :
  emit_mutation (Dis.BUILD_TUPLE 3)
    {| stack := [slot ["a"]; slot ["b"]; slot ["c"]]; extended_args := [] |} =
  (Returns None, {| stack := [slot ["c"; "b"; "a"]]; extended_args := [] |}).
Proof.
  apply (build_sequence_merges (Dis.BUILD_TUPLE 3) [["a"]; ["b"]; ["c"]] [] []).
  - apply list_elem_of_here.
  - reflexivity.
Defined.

(** [BUILD_MAP] counts the pairs and merges the slots of the keys and of the
    values, two for each pair; [BUILD_CONST_KEY_MAP] counts the values and
    merges their slots and that of the tuple of the keys, one more. *)
Theorem build_map_merges (instr : Instruction) (count : Z)
    (slots : list (list string)) (base : list pyval) (ext : list (option Z)) :
  arg instr = Some count ->
  (opname instr = "BUILD_MAP" /\ Z.of_nat (length slots) = count * 2) \/
  (opname instr = "BUILD_CONST_KEY_MAP" /\ Z.of_nat (length slots) = count + 1) ->
  emit_mutation instr
    {| stack := base ++ (slot <$> slots); extended_args := ext |} =
  (Returns None,
   {| stack := base ++ [slot (concat (reverse slots))];
      extended_args := ext |}).
Proof.
  intros Harg [[Hop Hlen] | [Hop Hlen]].
  - dispatch Hop _BUILD_MAP_handler. unfold _BUILD_MAP_handler.
    rewrite Harg. mstep. rewrite <- Hlen. by apply build_merges.
  - dispatch Hop _BUILD_CONST_KEY_MAP_handler.
    unfold _BUILD_CONST_KEY_MAP_handler.
    rewrite Harg. mstep. rewrite <- Hlen. by apply build_merges.
Qed.

(** [{k: v, a: b}]: the slots of four names for two pairs. *)
Lemma build_map_merges_witness :
  emit_mutation (Dis.BUILD_MAP 2)
    {| stack := [slot ["k"]; slot ["v"]; slot ["a"]; slot ["b"]];
       extended_args := [] |} =
  (Returns None,
   {| stack := [slot ["b"; "a"; "v"; "k"]]; extended_args := [] |}).
Proof.
  apply (build_map_merges (Dis.BUILD_MAP 2) 2
           [["k"]; ["v"]; ["a"]; ["b"]] [] []).
  - reflexivity.
  - left. split; reflexivity.
Defined.

(** [_pop_n_push_one(n)] on a stack of fewer than [n] lists: the lists are
    popped, the next [_pop()] answers [None], and extending by [None]
    raises. *)
Lemma pop_n_push_one_short (n : Z) (items : list (list pyval))
    (ext : list (option Z)) :
  Z.of_nat (length items) < n ->
  _pop_n_push_one (Some n)
    {| stack := PList <$> items; extended_args := ext |} =
  (Raises TypeError, {| stack := []; extended_args := ext |}).
Proof.
  intros Hlen. unfold _pop_n_push_one. mstep.
  replace (Z.to_nat n)
    with (length items + S (Z.to_nat n - S (length items)))%nat by lia.
  rewrite for_range_add, bind_eq.
  pose proof (extend_loop items [] [] ext) as Hloop. cbn [app] in Hloop.
  rewrite Hloop. cbn [for_range]. by mstep.
Qed.

(** A merge of more slots than the stack holds, by [BUILD_TUPLE],
    [BUILD_LIST], [BUILD_SET] or a binary operation, raises a [TypeError], and
    the slots that were there are lost: the stack is empty afterwards. *)
Theorem merge_underflow (instr : Instruction) (n : Z)
    (slots : list (list string)) (ext : list (option Z)) :
  (opname instr ∈ ["BUILD_TUPLE"; "BUILD_LIST"; "BUILD_SET"]
     /\ arg instr = Some n) \/
  (String.prefix "BINARY_" (opname instr) = true /\ n = 2) ->
  Z.of_nat (length slots) < n ->
  emit_mutation instr {| stack := slot <$> slots; extended_args := ext |} =
  (Raises TypeError, {| stack := []; extended_args := ext |}).
Proof.
  intros Hinstr Hlen.
  assert (_pop_n_push_one (Some n)
            {| stack := slot <$> slots; extended_args := ext |} =
          (Raises TypeError, {| stack := []; extended_args := ext |})) as Hpop.
  { replace (slot <$> slots)
      with (PList <$> (fmap (M:=list) PStr <$> slots))
      by (by rewrite <- list_fmap_compose).
    apply pop_n_push_one_short. by rewrite length_fmap. }
  destruct Hinstr as [[Hop Harg] | [Hprefix ->]].
  - elem_of_cases Hop.
    + dispatch Hop _BUILD_TUPLE_handler. unfold _BUILD_TUPLE_handler.
      rewrite Harg, bind_eq. by rewrite Hpop.
    + dispatch Hop _BUILD_LIST_handler.
      unfold _BUILD_LIST_handler, _BUILD_TUPLE_handler.
      rewrite Harg, !bind_eq. by rewrite Hpop.
    + dispatch Hop _BUILD_SET_handler.
      unfold _BUILD_SET_handler, _BUILD_TUPLE_handler.
      rewrite Harg, !bind_eq. by rewrite Hpop.
  - rewrite (emit_mutation_binary _ Hprefix).
    unfold _BINARY_operation_handler. rewrite !bind_eq. by rewrite Hpop.
Qed.

(** [a + b] with the slot of [a] alone on the stack. *)
Lemma merge_underflow_witness :
  emit_mutation Dis.BINARY_ADD
    {| stack := [slot ["a"]]; extended_args := [] |} =
  (Raises TypeError, {| stack := []; extended_args := [] |}).
Proof.
  apply (merge_underflow Dis.BINARY_ADD 2 [["a"]] []).
  - right. split; reflexivity.
  - simpl. lia.
Defined.

(** ** The extended arguments *)

(** Each [EXTENDED_ARG] appends its argument to the extended arguments and
    leaves the stack: after a run of them the arguments are there in the
    order of the instructions, behind those that were pending. *)
Theorem EXTENDED_ARG_accumulates (instrs : list Instruction) (st : ValueStack) :
  Forall (fun instr => opname instr = "EXTENDED_ARG") instrs ->
  emit_mutations instrs st =
  (Returns (replicate (length instrs) None),
   {| stack := stack st;
      extended_args := extended_args st ++ (arg <$> instrs) |}).
Proof.
  intros Hops. revert st.
  induction Hops as [|instr instrs Hop _ IH]; intros [s ext].
  - cbn. by rewrite app_nil_r.
  - cbn [emit_mutations]. dispatch Hop _EXTENDED_ARG_handler.
    unfold _EXTENDED_ARG_handler. mstep. rewrite IH. mstep.
    cbn [length replicate]. csimpl. by rewrite <- app_assoc.
Qed.

(** The example of the class: [EXTENDED_ARG 1], [EXTENDED_ARG 2]. *)
Lemma EXTENDED_ARG_accumulates_witness :
  emit_mutations [Dis.EXTENDED_ARG 1; Dis.EXTENDED_ARG 2] new =
  (Returns [None; None],
   {| stack := []; extended_args := [Some 1; Some 2] |}).
Proof.
  apply (EXTENDED_ARG_accumulates [Dis.EXTENDED_ARG 1; Dis.EXTENDED_ARG 2] new).
  repeat constructor.
Defined.

(** ** What the handlers have in common *)

(** A property of the handlers is one of [emit_mutation], for the opnames
    that are not set apart: it is enough that the handler of the binary
    operations, a missing handler and each handler of the class have it. *)
Lemma emit_mutation_cases (P : M (option Mutation) -> Prop)
    (apart : list string) (instr : Instruction) :
  opname instr ∉ apart ->
  P (_BINARY_operation_handler instr;; mret None) ->
  (forall name, P (raise (AttributeError name))) ->
  Forall (fun nh => nh.1 ∈ handler_name <$> apart \/ P (nh.2 instr)) handlers ->
  P (emit_mutation instr).
Proof.
  intros Hop Hbinary Hmissing Hall. unfold emit_mutation, getattr.
  destruct (String.prefix _ _); [done|].
  destruct (_ !! _) as [h|] eqn:Hh; [|apply Hmissing].
  apply elem_of_list_to_map_2 in Hh.
  rewrite Forall_forall in Hall. destruct (Hall _ Hh) as [Hin | HP]; [|done].
  simpl in Hin. apply list_elem_of_fmap_inj_2 in Hin; [done|apply _].
Qed.

Section keeps_extended_args.

Lemma keeps_ret {A} (a : A) : keeps_extended_args (mret a : M A).
Proof. by intros st. Qed.

Lemma keeps_lift {A} (o : outcome A) : keeps_extended_args (lift o).
Proof. by intros st. Qed.

Lemma keeps_assert (b : bool) : keeps_extended_args (assert b).
Proof. by destruct b. Qed.

Lemma keeps_range (n : option Z) : keeps_extended_args (range n).
Proof. by destruct n. Qed.

Lemma keeps_bind {A B} (m : M A) (f : A -> M B) :
  keeps_extended_args m -> (forall a, keeps_extended_args (f a)) ->
  keeps_extended_args (m ≫= f).
Proof.
  intros Hm Hf st. rewrite bind_eq. specialize (Hm st).
  destruct (m st) as [[a|e] st']; simpl in *; [|done].
  by rewrite Hf.
Qed.

Lemma keeps_try_except {A} (body handler : M A) :
  keeps_extended_args body -> keeps_extended_args handler ->
  keeps_extended_args (try_except_IndexError body handler).
Proof.
  intros Hbody Hhandler st. unfold try_except_IndexError.
  specialize (Hbody st). destruct (body st) as [[a|e] st']; [done|].
  destruct e; try done. simpl in *. by rewrite Hhandler.
Qed.

Lemma keeps_for_range {T} (k : nat) (body : T -> M T) (acc : T) :
  (forall acc, keeps_extended_args (body acc)) ->
  keeps_extended_args (for_range k body acc).
Proof.
  intros Hbody. revert acc. induction k as [|k IH]; intros acc.
  - apply keeps_ret.
  - cbn [for_range]. by apply keeps_bind.
Qed.

Lemma keeps_stack_getitem (i : Z) : keeps_extended_args (stack_getitem i).
Proof. intros st. unfold stack_getitem. by destruct (Py.list_getitem _ _). Qed.

Lemma keeps_stack_pop : keeps_extended_args stack_pop.
Proof.
  intros st. unfold stack_pop. by destruct (Py.list_pop _) as [[v rest]|].
Qed.

Lemma keeps_push (v : pyval) : keeps_extended_args (_push v).
Proof. by intros st. Qed.

Lemma keeps_tos : keeps_extended_args tos.
Proof.
  apply keeps_try_except; [apply keeps_stack_getitem | apply keeps_ret].
Qed.

Lemma keeps_tos1 : keeps_extended_args tos1.
Proof.
  apply keeps_try_except; [apply keeps_stack_getitem | apply keeps_ret].
Qed.

Lemma keeps_pop (n : Z) : keeps_extended_args (_pop n).
Proof.
  unfold _pop. apply keeps_try_except; [|apply keeps_ret].
  destruct (n =? 1); [apply keeps_stack_pop|].
  apply keeps_bind; [apply keeps_range|]. intros k.
  apply keeps_bind; [|intros l; apply keeps_ret].
  apply keeps_for_range. intros l.
  apply keeps_bind; [apply keeps_stack_pop|]. intros v. apply keeps_ret.
Qed.

(** The steps of a handler that does not touch the extended arguments. *)
Ltac keeps_step :=
  first
    [ apply keeps_ret | apply keeps_lift | apply keeps_assert
    | apply keeps_range | apply keeps_push | apply keeps_tos
    | apply keeps_tos1 | apply keeps_pop
    | apply keeps_for_range; intros ?
    | apply keeps_bind; [|intros ?] ].

Lemma keeps_pop_n_push_one (n : option Z) :
  keeps_extended_args (_pop_n_push_one n).
Proof. unfold _pop_n_push_one. repeat keeps_step. Qed.

Lemma keeps_pop_one_push_n (n : option Z) :
  keeps_extended_args (_pop_one_push_n n).
Proof. unfold _pop_one_push_n. repeat keeps_step. Qed.

Lemma keeps_handlers (instr : Instruction) :
  Forall (fun nh =>
            nh.1 ∈ handler_name <$> ["EXTENDED_ARG"; "UNPACK_EX"] \/
            keeps_extended_args (nh.2 instr))
    handlers.
Proof.
  unfold handlers.
  repeat (apply Forall_cons; split; [cbn [fst snd]|]); [..|by apply Forall_nil].
  all: try (left; apply (bool_decide_unpack _); vm_compute; exact I).
  all: right.
  all: unfold _POP_TOP_handler, _ROT_TWO_handler, _DUP_TOP_handler,
    _UNARY_POSITIVE_handler, _UNARY_NEGATIVE_handler, _UNARY_NOT_handler,
    _UNARY_INVERT_handler, _BINARY_operation_handler, _RETURN_VALUE_handler,
    _STORE_FAST_handler, _STORE_NAME_handler, _UNPACK_SEQUENCE_handler,
    _STORE_ATTR_handler, _LOAD_CONST_handler, _LOAD_NAME_handler,
    _BUILD_LIST_handler, _BUILD_SET_handler, _BUILD_TUPLE_handler,
    _BUILD_MAP_handler, _BUILD_CONST_KEY_MAP_handler, _LOAD_ATTR_handler,
    _LOAD_FAST_handler, _LOAD_METHOD_handler, _CALL_METHOD_handler.
  all: repeat first
         [ apply keeps_pop_n_push_one | apply keeps_pop_one_push_n
         | match goal with
           | |- keeps_extended_args (let '(_, _) := ?p in _) => destruct p
           end
         | keeps_step ].
Qed.

End keeps_extended_args.

Lemma keeps_emit_mutation (instr : Instruction) :
  opname instr ∉ ["EXTENDED_ARG"; "UNPACK_EX"] ->
  keeps_extended_args (emit_mutation instr).
Proof.
  intros Hop. apply (emit_mutation_cases _ _ _ Hop).
  - apply keeps_bind; [|intros ?; apply keeps_ret].
    apply keeps_bind; [apply keeps_pop_n_push_one|intros ?; apply keeps_ret].
  - by intros name st.
  - apply keeps_handlers.
Qed.

(** The extended arguments are written by [EXTENDED_ARG] and [UNPACK_EX]
    alone: whatever other instructions are processed, and whether they return
    or raise, the arguments that are pending stay as they are. *)
Theorem extended_args_stay_pending (instrs : list Instruction)
    (st : ValueStack) :
  Forall (fun instr => opname instr ∉ ["EXTENDED_ARG"; "UNPACK_EX"]) instrs ->
  extended_args (emit_mutations instrs st).2 = extended_args st.
Proof.
  intros Hops. revert st.
  induction Hops as [|instr instrs Hop _ IH]; intros st; [done|].
  cbn [emit_mutations]. rewrite bind_eq.
  pose proof (keeps_emit_mutation instr Hop st) as Hinstr.
  destruct (emit_mutation instr st) as [[r|e] st']; simpl in Hinstr; [|done].
  rewrite bind_eq. specialize (IH st').
  destruct (emit_mutations instrs st') as [[rs|e] st'']; simpl in *; congruence.
Qed.

(** An extended argument, then [c = a + b]: the argument is still there. *)
Lemma extended_args_stay_pending_witness :
  extended_args
    (emit_mutations
       [Dis.LOAD_NAME 0 "a"; Dis.LOAD_NAME 1 "b"; Dis.BINARY_ADD;
        Dis.STORE_NAME 2 "c"]
       {| stack := []; extended_args := [Some 1] |}).2 = [Some 1].
Proof.
  apply (extended_args_stay_pending
           [Dis.LOAD_NAME 0 "a"; Dis.LOAD_NAME 1 "b"; Dis.BINARY_ADD;
            Dis.STORE_NAME 2 "c"]
           {| stack := []; extended_args := [Some 1] |}).
  repeat (apply Forall_cons_2;
          [cbv beta; apply (bool_decide_unpack _); vm_compute; exact I|]).
  apply Forall_nil_2.
Defined.

Section no_mutation.

Lemma no_mutation_ret_None : no_mutation (mret None).
Proof. by intros st mutation. Qed.

Lemma no_mutation_raise (e : exn) : no_mutation (raise e).
Proof. by intros st mutation. Qed.

Lemma no_mutation_bind {A} (m : M A) (f : A -> M (option Mutation)) :
  (forall a, no_mutation (f a)) -> no_mutation (m ≫= f).
Proof.
  intros Hf st mutation. rewrite bind_eq.
  destruct (m st) as [[a|e] st']; [apply Hf|done].
Qed.

Lemma no_mutation_handlers (instr : Instruction) :
  Forall (fun nh =>
            nh.1 ∈ handler_name <$> ["STORE_NAME"; "STORE_FAST"; "STORE_ATTR"] \/
            no_mutation (nh.2 instr))
    handlers.
Proof.
  unfold handlers.
  repeat (apply Forall_cons; split; [cbn [fst snd]|]); [..|by apply Forall_nil].
  all: try (left; apply (bool_decide_unpack _); vm_compute; exact I).
  all: right.
  all: unfold _POP_TOP_handler, _ROT_TWO_handler, _DUP_TOP_handler,
    _UNARY_POSITIVE_handler, _UNARY_NEGATIVE_handler, _UNARY_NOT_handler,
    _UNARY_INVERT_handler, _BINARY_operation_handler, _RETURN_VALUE_handler,
    _UNPACK_SEQUENCE_handler, _UNPACK_EX_handler, _LOAD_CONST_handler,
    _LOAD_NAME_handler, _BUILD_LIST_handler, _BUILD_SET_handler,
    _BUILD_TUPLE_handler, _BUILD_MAP_handler, _BUILD_CONST_KEY_MAP_handler,
    _LOAD_ATTR_handler, _LOAD_FAST_handler, _LOAD_METHOD_handler,
    _CALL_METHOD_handler, _EXTENDED_ARG_handler.
  all: repeat first
         [ apply no_mutation_ret_None
         | match goal with
           | |- no_mutation (let '(_, _) := ?p in _) => destruct p
           end
         | apply no_mutation_bind; intros ? ].
Qed.

End no_mutation.

(** A mutation is returned by the three stores alone, [STORE_NAME],
    [STORE_FAST] and [STORE_ATTR]: no other instruction returns one, on any
    stack. *)
Theorem only_stores_emit (instr : Instruction) (st : ValueStack)
    (mutation : Mutation) :
  opname instr ∉ ["STORE_NAME"; "STORE_FAST"; "STORE_ATTR"] ->
  (emit_mutation instr st).1 <> Returns (Some mutation).
Proof.
  intros Hop. revert st mutation.
  apply (emit_mutation_cases no_mutation _ _ Hop).
  - apply no_mutation_bind. intros ?. apply no_mutation_ret_None.
  - intros name. apply no_mutation_raise.
  - apply no_mutation_handlers.
Qed.

(** The load of [a] returns no mutation of [a]. *)
Lemma only_stores_emit_witness :
  (emit_mutation (Dis.LOAD_NAME 0 "a") new).1 <>
  Returns (Some {| target := PStr "a"; sources := ∅ |}).
Proof.
  apply (only_stores_emit (Dis.LOAD_NAME 0 "a") new).
  apply (bool_decide_unpack _). vm_compute. exact I.
Defined.

(** ** Assignments *)

Lemma label_set_nil : label_set [] = ∅.
Proof. reflexivity. Qed.

Lemma label_set_singleton (s : string) : label_set [s] = {[ HStr s ]}.
Proof. unfold label_set. csimpl. apply (right_id_L _ _). Qed.

(** An assignment of a constant, [x = 1]: the mutation of the name has no
    sources, and the stack is afterwards as it was before. *)
Theorem constant_has_no_sources (load store : Instruction) (st : ValueStack) :
  opname load = "LOAD_CONST" ->
  opname store ∈ ["STORE_NAME"; "STORE_FAST"] ->
  emit_mutations [load; store] st =
  (Returns [None; Some {| target := argval store; sources := ∅ |}], st).
Proof.
  intros Hload Hstore. destruct st as [s ext]. cbn [emit_mutations].
  rewrite (emit_mutation_dispatch load _LOAD_CONST_handler)
    by (rewrite Hload; by vm_compute).
  unfold _LOAD_CONST_handler. mstep.
  rewrite push_placeholder. mstep.
  change (PList []) with (slot []).
  assert (emit_mutation store
            {| stack := s ++ [slot []]; extended_args := ext |} =
          (Returns (Some {| target := argval store; sources := ∅ |}),
           {| stack := s; extended_args := ext |})) as ->; [|by mstep].
  rewrite <- label_set_nil. elem_of_cases Hstore.
  - dispatch Hstore _STORE_NAME_handler. apply STORE_NAME_handler_emits.
  - dispatch Hstore _STORE_FAST_handler. apply STORE_NAME_handler_emits.
Qed.

(** [x = 1], with the slot of [a] on the stack. *)
Lemma constant_has_no_sources_witness :
  let st := {| stack := [slot ["a"]]; extended_args := [] |} in
  emit_mutations [Dis.LOAD_CONST 0; Dis.STORE_NAME 0 "x"] st =
  (Returns [None; Some {| target := PStr "x"; sources := ∅ |}], st).
Proof.
  apply (constant_has_no_sources (Dis.LOAD_CONST 0) (Dis.STORE_NAME 0 "x")
           {| stack := [slot ["a"]]; extended_args := [] |}).
  - reflexivity.
  - apply list_elem_of_here.
Defined.

(** An assignment of a name to a name, [a = b], global or local: the mutation
    of [a] has [b] for its one source, and the stack is afterwards as it was
    before. *)
Theorem name_copy_assignment (load store : Instruction) (st : ValueStack) :
  opname load ∈ ["LOAD_NAME"; "LOAD_FAST"] ->
  opname store ∈ ["STORE_NAME"; "STORE_FAST"] ->
  emit_mutations [load; store] st =
  (Returns [None;
            Some {| target := argval store;
                    sources := {[ HStr (argrepr load) ]} |}], st).
Proof.
  intros Hload Hstore. destruct st as [s ext]. cbn [emit_mutations].
  rewrite bind_eq.
  assert (emit_mutation load {| stack := s; extended_args := ext |} =
          (Returns None,
           {| stack := s ++ [slot [argrepr load]]; extended_args := ext |}))
    as ->.
  { elem_of_cases Hload.
    - by rewrite (emit_mutation_dispatch load _LOAD_NAME_handler)
        by (rewrite Hload; by vm_compute).
    - by rewrite (emit_mutation_dispatch load _LOAD_FAST_handler)
        by (rewrite Hload; by vm_compute). }
  mstep.
  assert (emit_mutation store
            {| stack := s ++ [slot [argrepr load]]; extended_args := ext |} =
          (Returns (Some {| target := argval store;
                            sources := {[ HStr (argrepr load) ]} |}),
           {| stack := s; extended_args := ext |})) as ->; [|by mstep].
  rewrite <- label_set_singleton. elem_of_cases Hstore.
  - rewrite (emit_mutation_dispatch store _STORE_NAME_handler)
      by (rewrite Hstore; by vm_compute).
    apply STORE_NAME_handler_emits.
  - rewrite (emit_mutation_dispatch store _STORE_FAST_handler)
      by (rewrite Hstore; by vm_compute).
    apply STORE_NAME_handler_emits.
Qed.

(** [a = b], in a function. *)
Lemma name_copy_assignment_witness :
  emit_mutations [Dis.LOAD_FAST 1 "b"; Dis.STORE_FAST 0 "a"] new =
  (Returns [None; Some {| target := PStr "a"; sources := {[ HStr "b" ]} |}],
   new).
Proof.
  apply (name_copy_assignment (Dis.LOAD_FAST 1 "b") (Dis.STORE_FAST 0 "a") new).
  - apply list_elem_of_further, list_elem_of_here.
  - apply list_elem_of_further, list_elem_of_here.
Defined.

(** The first example of [_LOAD_ATTR_handler], [a = b.x]: because the load of
    the attribute keeps the slot of [b], the store into [a] returns the
    mutation of [a] from [b]; after the return of the module the stack is as
    it was before. *)
Theorem attribute_read_example (b x a : string) (i j k c : Z)
    (st : ValueStack) :
  emit_mutations
    [Dis.LOAD_NAME i b; Dis.LOAD_ATTR j x; Dis.STORE_NAME k a;
     Dis.LOAD_CONST c; Dis.RETURN_VALUE] st =
  (Returns [None; None;
            Some {| target := PStr a; sources := {[ HStr b ]} |};
            None; None], st).
Proof.
  destruct st as [s ext]. cbn [emit_mutations].
  rewrite (emit_mutation_dispatch (Dis.LOAD_NAME i b) _LOAD_NAME_handler)
    by by vm_compute.
  unfold _LOAD_NAME_handler. mstep. rewrite push_str. mstep.
  rewrite (emit_mutation_dispatch (Dis.LOAD_ATTR j x) _LOAD_ATTR_handler)
    by by vm_compute.
  unfold _LOAD_ATTR_handler. mstep.
  rewrite (emit_mutation_dispatch (Dis.STORE_NAME k a) _STORE_NAME_handler)
    by by vm_compute.
  cbn [Dis.LOAD_NAME Dis.with_name argrepr].
  change (PList [PStr b]) with (slot [b]).
  rewrite STORE_NAME_handler_emits, label_set_singleton. mstep.
  rewrite (emit_mutation_dispatch (Dis.LOAD_CONST c) _LOAD_CONST_handler)
    by by vm_compute.
  unfold _LOAD_CONST_handler. mstep. rewrite push_placeholder. mstep.
  rewrite (emit_mutation_dispatch (Dis.RETURN_VALUE) _RETURN_VALUE_handler)
    by by vm_compute.
  unfold _RETURN_VALUE_handler. mstep. rewrite pop_last. by mstep.
Qed.

(** The second example of [_LOAD_ATTR_handler], [a.x.y = 1]: the store into
    the attribute returns the mutation of [a], the object that changes, with
    no sources.  The store pops nothing, so that the slots of the constant
    and of [a] are still on the stack after the return of the module. *)
Theorem attribute_write_example (a x y : string) (i j k c c' : Z)
    (st : ValueStack) :
  emit_mutations
    [Dis.LOAD_CONST c; Dis.LOAD_NAME i a; Dis.LOAD_ATTR j x;
     Dis.STORE_ATTR k y; Dis.LOAD_CONST c'; Dis.RETURN_VALUE] st =
  (Returns [None; None; None;
            Some {| target := PStr a; sources := ∅ |};
            None; None],
   {| stack := stack st ++ [slot []; slot [a]];
      extended_args := extended_args st |}).
Proof.
  destruct st as [s ext]. cbn [emit_mutations].
  rewrite (emit_mutation_dispatch (Dis.LOAD_CONST c) _LOAD_CONST_handler)
    by by vm_compute.
  unfold _LOAD_CONST_handler. mstep. rewrite push_placeholder. mstep.
  rewrite (emit_mutation_dispatch (Dis.LOAD_NAME i a) _LOAD_NAME_handler)
    by by vm_compute.
  unfold _LOAD_NAME_handler. mstep. rewrite push_str. mstep.
  rewrite (emit_mutation_dispatch (Dis.LOAD_ATTR j x) _LOAD_ATTR_handler)
    by by vm_compute.
  unfold _LOAD_ATTR_handler. mstep.
  rewrite (emit_mutation_dispatch (Dis.STORE_ATTR k y) _STORE_ATTR_handler)
    by by vm_compute.
  rewrite <- app_assoc. cbn [app Dis.LOAD_NAME Dis.with_name argrepr].
  change (PList [PStr a]) with (slot [a]). change (PList []) with (slot []).
  rewrite STORE_ATTR_handler_emits, label_set_nil. mstep.
  rewrite (emit_mutation_dispatch (Dis.LOAD_CONST c') _LOAD_CONST_handler)
    by by vm_compute.
  unfold _LOAD_CONST_handler. mstep. rewrite push_placeholder. mstep.
  rewrite (emit_mutation_dispatch (Dis.RETURN_VALUE) _RETURN_VALUE_handler)
    by by vm_compute.
  unfold _RETURN_VALUE_handler. mstep. rewrite pop_last. by mstep.
Qed.

(** ** The exceptions that leave the class *)

Section escapes.

Lemma escapes_ret {A} (a : A) (Q : A -> Prop) : Q a -> escapes (mret a) Q.
Proof. by intros Ha st. Qed.

Lemma escapes_lift {A} (o : outcome A) (Q : A -> Prop) :
  (forall a, o = Returns a -> Q a) ->
  (forall e, o = Raises e -> e = TypeError) ->
  escapes (lift o) Q.
Proof.
  intros HQ He st. destruct o as [a|e]; simpl; [by apply HQ|].
  left. by apply He.
Qed.

Lemma escapes_weaken {A} (m : M A) (P Q : A -> Prop) :
  escapes m P -> (forall a, P a -> Q a) -> escapes m Q.
Proof.
  intros Hm HPQ st. specialize (Hm st).
  destruct (m st).1; [by apply HPQ|done].
Qed.

Lemma escapes_bind {A B} (m : M A) (f : A -> M B) (P : A -> Prop)
    (Q : B -> Prop) :
  escapes m P -> (forall a, P a -> escapes (f a) Q) -> escapes (m ≫= f) Q.
Proof.
  intros Hm Hf st. rewrite bind_eq. specialize (Hm st).
  destruct (m st) as [[a|e] st']; simpl in *; [by apply Hf|done].
Qed.

Lemma escapes_for_range {T} (k : nat) (body : T -> M T) (P : T -> Prop)
    (acc : T) :
  (forall acc, P acc -> escapes (body acc) P) -> P acc ->
  escapes (for_range k body acc) P.
Proof.
  intros Hbody. revert acc. induction k as [|k IH]; intros acc Hacc.
  - by apply escapes_ret.
  - cbn [for_range]. eapply escapes_bind; [by apply Hbody|]. apply IH.
Qed.

Lemma escapes_assert (b : bool) : escapes (assert b) (fun _ => True).
Proof. destruct b; intros st; [done|by right]. Qed.

Lemma escapes_range (n : option Z) : escapes (range n) (fun _ => True).
Proof. destruct n; intros st; [done|by left]. Qed.

(** The accessors catch the [IndexError] of the list and return. *)
Lemma tos_returns (st : ValueStack) : exists v, tos st = (Returns v, st).
Proof.
  unfold tos, try_except_IndexError, stack_getitem.
  destruct (Py.list_getitem _ _); eauto.
Qed.

Lemma tos1_returns (st : ValueStack) : exists v, tos1 st = (Returns v, st).
Proof.
  unfold tos1, try_except_IndexError, stack_getitem.
  destruct (Py.list_getitem _ _); eauto.
Qed.

Lemma escapes_tos : escapes tos (fun _ => True).
Proof. intros st. by destruct (tos_returns st) as [v ->]. Qed.

Lemma escapes_tos1 : escapes tos1 (fun _ => True).
Proof. intros st. by destruct (tos1_returns st) as [v ->]. Qed.

Lemma escapes_push (v : pyval) : escapes (_push v) (fun _ => True).
Proof. by intros st. Qed.

(** The rounds of [_pop(n)] return a value for each round, or raise the
    [IndexError] of the list. *)
Lemma pop_rounds (k : nat) (acc : list pyval) (st : ValueStack) :
  (exists l st',
     for_range k (fun l => v ← stack_pop; mret (l ++ [v])) acc st =
       (Returns l, st') /\ length l = (length acc + k)%nat) \/
  (exists st',
     for_range k (fun l => v ← stack_pop; mret (l ++ [v])) acc st =
       (Raises IndexError, st')).
Proof.
  revert acc st. induction k as [|k IH]; intros acc st.
  - left. exists acc, st. split; [done|lia].
  - cbn [for_range]. rewrite !bind_eq. unfold stack_pop at 1 3.
    destruct (Py.list_pop (stack st)) as [[v rest]|]; [|right; eauto].
    mstep.
    destruct (IH (acc ++ [v])
                {| stack := rest; extended_args := extended_args st |})
      as [(l & st' & -> & Hl) | [st' ->]]; [left|right; eauto].
    exists l, st'. split; [done|]. rewrite length_app in Hl. simpl in Hl. lia.
Qed.

(** [_pop(n)] never raises; for [n] other than 1 it returns [None] or a list
    of [n] values. *)
Lemma escapes_pop (n : Z) :
  escapes (_pop n)
    (fun v => n = 1 \/ v = PNone \/
              exists l, v = PList l /\ length l = Z.to_nat n).
Proof.
  intros st. unfold _pop, try_except_IndexError.
  destruct (Z.eqb_spec n 1) as [-> | Hn].
  - unfold stack_pop. destruct (Py.list_pop _) as [[v rest]|]; simpl; by left.
  - mstep.
    destruct (pop_rounds (Z.to_nat n) [] st)
      as [(l & st' & -> & Hl) | [st' ->]]; mstep; simpl; right; eauto.
Qed.

Lemma escapes_pop1 : escapes (_pop 1) (fun _ => True).
Proof. by eapply escapes_weaken; [apply (escapes_pop 1)|]. Qed.

Lemma iter_TypeError (v : pyval) (e : exn) :
  Py.iter v = Raises e -> e = TypeError.
Proof. destruct v; simpl; congruence. Qed.

Lemma hash_all_TypeError (l : list pyval) (e : exn) :
  Py.hash_all l = Raises e -> e = TypeError.
Proof.
  induction l as [|v l IH]; simpl; [done|].
  destruct (Py.hash v) as [h|e'] eqn:Hv.
  - destruct (Py.hash_all l) as [hs|e'']; [done|]. intros [= <-]. by apply IH.
  - intros [= <-]. destruct v; simpl in Hv; congruence.
Qed.

Lemma set_TypeError (v : pyval) (e : exn) :
  Py.set v = Raises e -> e = TypeError.
Proof.
  unfold Py.set. destruct (Py.iter v) as [l|e'] eqn:Hiter.
  - destruct (Py.hash_all l) eqn:Hhash; [done|].
    intros [= <-]. by eapply hash_all_TypeError.
  - intros [= <-]. by eapply iter_TypeError.
Qed.

Lemma len_TypeError (v : pyval) (e : exn) :
  Py.len v = Raises e -> e = TypeError.
Proof. destruct v; simpl; congruence. Qed.

Lemma add_TypeError (a : Z) (x : option Z) (e : exn) :
  Py.add (Returns a) x = Raises e -> e = TypeError.
Proof. destruct x; simpl; congruence. Qed.

Lemma sum_TypeError (l : list (option Z)) (e : exn) :
  Py.sum l = Raises e -> e = TypeError.
Proof.
  unfold Py.sum.
  assert (forall acc, (forall e, acc = Raises e -> e = TypeError) ->
            fold_left Py.add l acc = Raises e -> e = TypeError) as Hfold.
  { induction l as [|x l IH]; intros acc Hacc; [apply Hacc|].
    simpl. apply IH. intros e' Heq.
    destruct acc as [a|e''], x; simpl in Heq; try congruence.
    all: apply Hacc; congruence. }
  by apply Hfold.
Qed.

Lemma chars_length (s : string) : length (Py.chars s) = String.length s.
Proof. induction s as [|c s IH]; simpl; [done|]. by rewrite IH. Qed.

(** A value of length one has an item at index 0. *)
Lemma getitem_first (v : pyval) :
  Py.len v = Returns 1 -> exists x, Py.getitem v 0 = Returns x.
Proof.
  assert (forall l : list pyval, Z.of_nat (length l) = 1 ->
            exists x, Py.list_getitem l 0 = Some x) as Hlist.
  { intros [|x [|y l]]; simpl; try lia. intros _. by exists x. }
  destruct v as [|s|l]; simpl; [done| |].
  - intros [= Hlen]. rewrite <- chars_length in Hlen.
    destruct (Hlist _ Hlen) as [x ->]. eauto.
  - intros [= Hlen]. destruct (Hlist _ Hlen) as [x ->]. eauto.
Qed.

End escapes.

Section handlers_escapes.
Implicit Types (instr : Instruction).

Lemma escapes_get_extended_args :
  escapes get_extended_args (fun _ => True).
Proof. by intros st. Qed.

Lemma escapes_extended_args_append (x : option Z) :
  escapes (extended_args_append x) (fun _ => True).
Proof. by intros st. Qed.

Lemma escapes_extended_args_clear :
  escapes extended_args_clear (fun _ => True).
Proof. by intros st. Qed.

(** The built-ins of the handlers raise a [TypeError] and nothing else. *)
Ltac solve_TypeError :=
  intros ?;
  first [ apply iter_TypeError | apply set_TypeError | apply len_TypeError
        | apply sum_TypeError | apply add_TypeError
        | destruct (arg _); congruence ].

Ltac escapes_step :=
  first
    [ apply escapes_ret; exact I
    | eapply escapes_bind;
        [ first [ apply escapes_pop1 | apply escapes_tos | apply escapes_tos1
                | apply escapes_assert | apply escapes_range
                | apply escapes_push
                | apply escapes_get_extended_args
                | apply escapes_extended_args_append
                | apply escapes_extended_args_clear
                | apply (escapes_lift _ (fun _ => True));
                    [done | solve_TypeError] ]
        | intros ? ? ]
    | apply escapes_for_range; [intros ? ?|exact I]
    | eapply (escapes_bind _ _ (fun _ => True)); [|intros ? ?] ].

Lemma escapes_pop_n_push_one (n : option Z) :
  escapes (_pop_n_push_one n) (fun _ => True).
Proof.
  unfold _pop_n_push_one. repeat escapes_step.
Qed.

Lemma escapes_pop_one_push_n (n : option Z) :
  escapes (_pop_one_push_n n) (fun _ => True).
Proof.
  unfold _pop_one_push_n. repeat escapes_step.
Qed.

(** [_pop(2)] returns [None] or a list of two values: unpacking it raises no
    [ValueError]. *)
Lemma escapes_ROT_TWO instr : escapes (_ROT_TWO_handler instr) (fun _ => True).
Proof.
  unfold _ROT_TWO_handler.
  eapply escapes_bind; [apply (escapes_pop 2)|]. intros popped Hpopped.
  eapply (escapes_bind _ _ (fun _ => True)).
  - apply escapes_lift; [done|]. intros e.
    destruct Hpopped as [? | [-> | (l & -> & Hl)]]; [done|by intros [= <-]|].
    by destruct l as [|a [|b [|c l]]].
  - intros [a b] _. repeat escapes_step.
Qed.

(** [STORE_ATTR] takes the first item of the top of the stack after it has
    asserted that there is one: the subscript raises no [IndexError]. *)
Lemma escapes_STORE_ATTR instr :
  escapes (_STORE_ATTR_handler instr) (fun _ => True).
Proof.
  intros st. unfold _STORE_ATTR_handler. mstep.
  destruct (tos_returns st) as [v Hv]. rewrite Hv. mstep.
  destruct (Py.len v) as [n|e] eqn:Hlen; mstep;
    [|left; by eapply len_TypeError].
  destruct (Z.eqb_spec n 1) as [-> | _]; mstep; [|by right].
  rewrite Hv. mstep. destruct (getitem_first v Hlen) as [owner ->]. mstep.
  destruct (tos1_returns st) as [v1 ->]. mstep.
  destruct (Py.set v1) as [srcs|e] eqn:Hset; mstep; [done|].
  left. by eapply set_TypeError.
Qed.

(** No handler of the class raises anything but a [TypeError] or an
    [AssertionError]. *)
Lemma escapes_handlers instr :
  Forall (fun nh => escapes (nh.2 instr) (fun _ => True)) handlers.
Proof.
  unfold handlers.
  repeat (apply Forall_cons; split; [cbn [snd]|]); [..|by apply Forall_nil].
  all: try apply escapes_ROT_TWO; try apply escapes_STORE_ATTR.
  all: unfold _POP_TOP_handler, _DUP_TOP_handler,
    _UNARY_POSITIVE_handler, _UNARY_NEGATIVE_handler, _UNARY_NOT_handler,
    _UNARY_INVERT_handler, _BINARY_operation_handler, _RETURN_VALUE_handler,
    _STORE_FAST_handler, _STORE_NAME_handler, _UNPACK_SEQUENCE_handler,
    _UNPACK_EX_handler, _LOAD_CONST_handler, _LOAD_NAME_handler,
    _BUILD_LIST_handler, _BUILD_SET_handler, _BUILD_TUPLE_handler,
    _BUILD_MAP_handler, _BUILD_CONST_KEY_MAP_handler, _LOAD_ATTR_handler,
    _LOAD_FAST_handler, _LOAD_METHOD_handler, _CALL_METHOD_handler,
    _EXTENDED_ARG_handler.
  all: repeat first
         [ apply escapes_pop_n_push_one | apply escapes_pop_one_push_n
         | escapes_step ].
Qed.

End handlers_escapes.

(** [emit_mutation] raises a [TypeError], an [AssertionError] or the
    [AttributeError] of the handler that is missing, and nothing else: the
    [IndexError] of a stack that is too short is caught by the accessors and
    never leaves the class, and [_pop(2)] is never unpacked into the wrong
    number of values. *)
Theorem exceptions_of_emit_mutation (instr : Instruction) (st : ValueStack)
    (e : exn) :
  (emit_mutation instr st).1 = Raises e ->
  e = TypeError \/ e = AssertionError \/
  e = AttributeError ("_" +:+ opname instr +:+ "_handler").
Proof.
  assert (forall m : M (option Mutation),
            escapes m (fun _ => True) ->
            (m st).1 = Raises e ->
            e = TypeError \/ e = AssertionError \/
            e = AttributeError ("_" +:+ opname instr +:+ "_handler"))
    as Hescapes.
  { intros m Hm Hraises. specialize (Hm st). rewrite Hraises in Hm.
    destruct Hm; eauto. }
  unfold emit_mutation, getattr. destruct (String.prefix _ _).
  - apply Hescapes. unfold _BINARY_operation_handler.
    eapply (escapes_bind _ _ (fun _ => True)); [|intros; by apply escapes_ret].
    eapply escapes_bind; [apply escapes_pop_n_push_one|].
    intros; by apply escapes_ret.
  - destruct (_ !! _) as [h|] eqn:Hh.
    + apply elem_of_list_to_map_2 in Hh.
      pose proof (escapes_handlers instr) as Hall.
      rewrite Forall_forall in Hall. apply (Hescapes _ (Hall _ Hh)).
    + simpl. intros [= <-]. right. by right.
Qed.

(** The store of an attribute of [a + b]: an [AssertionError]. *)
Lemma exceptions_of_emit_mutation_witness :
  let st := {| stack := [slot []; slot ["b"; "a"]]; extended_args := [] |} in
  (emit_mutation (Dis.STORE_ATTR 0 "x") st).1 = Raises AssertionError
  /\ (AssertionError = TypeError \/ AssertionError = AssertionError \/
      AssertionError = AttributeError "_STORE_ATTR_handler").
Proof.
  split; [reflexivity|].
  apply (exceptions_of_emit_mutation (Dis.STORE_ATTR 0 "x")
           {| stack := [slot []; slot ["b"; "a"]]; extended_args := [] |}).
  reflexivity.
Defined.
